(** * QuickDefine: the three-tier dictionary lookup, embedded in Rocq

    The development follows the JavaScript sources of the extension:
    - [utils.js]      : [SimpleCache], [fetchWithTimeout], [formatErrorMessage],
                        [DictionaryManager]
    - [db.js]         : [DictionaryDB] (the IndexedDB wrapper)
    - [background.js] : [storeBatch] of the service worker
    - [constants.js]  : [QUICKDEFINE_CONFIG]

    Conventions of the embedding.
    - JavaScript numbers that hold times, sizes and HTTP status codes are
      integers in the program; they are modelled by [Z] ([nat] for counters
      that the code only increments from 0).
    - A JavaScript string is modelled by [string], read as a sequence of
      code units below 256 (the Latin-1 range).
    - A JavaScript [Map] is an association list in insertion order with
      pairwise distinct keys.
    - An [async] function is a state transformer over the [World] that
      returns, throws, or never resumes ([Pending]); one call runs without
      interleaving with other calls.
    - What the outside world decides (the network, faults of the storage
      layer, whether db.js is loaded) is read from an oracle [Env]. *)

From Stdlib Require Import ZArith String Ascii List Lia Sorted DecimalString.
From stdpp Require Import base gmap list strings fin_maps.
From Equations Require Import Equations.

Set Warnings "-register-all".
Local Open Scope string_scope.
Local Open Scope list_scope.

(** ** JavaScript strings: [trim], [toLowerCase] *)

Module JsString.

(** WhiteSpace and LineTerminator code units below 256:
    TAB, LF, VT, FF, CR, SPACE and NO-BREAK SPACE. *)
Definition is_ws (c : ascii) : bool :=
  let n := nat_of_ascii c in
  ((9 <=? n)%nat && (n <=? 13)%nat) || (n =? 32)%nat || (n =? 160)%nat.

(** Unicode simple lower-casing on the Latin-1 range: A-Z and the
    letters U+00C0..U+00DE except the multiplication sign U+00D7. *)
Definition lower_char (c : ascii) : ascii :=
  let n := nat_of_ascii c in
  if ((65 <=? n)%nat && (n <=? 90)%nat)
     || ((192 <=? n)%nat && (n <=? 222)%nat && negb (n =? 215)%nat)
  then ascii_of_nat (n + 32)
  else c.

Fixpoint toLowerCase (s : string) : string :=
  match s with
  | EmptyString => EmptyString
  | String c r => String (lower_char c) (toLowerCase r)
  end.

Fixpoint trimStart (s : string) : string :=
  match s with
  | EmptyString => EmptyString
  | String c r => if is_ws c then trimStart r else s
  end.

Fixpoint trimEnd (s : string) : string :=
  match s with
  | EmptyString => EmptyString
  | String c r =>
      match trimEnd r with
      | EmptyString => if is_ws c then EmptyString else String c EmptyString
      | r' => String c r'
      end
  end.

Definition trim (s : string) : string := trimEnd (trimStart s).

(** [word.trim().toLowerCase()], the normalisation used by every tier. *)
Definition normalize (s : string) : string := toLowerCase (trim s).

Definition is_empty (s : string) : bool :=
  match s with EmptyString => true | _ => false end.

(** Number to decimal string, as in a template literal. *)
Definition of_Z (z : Z) : string := NilZero.string_of_int (Z.to_int z).

Definition hex_digit (n : nat) : ascii :=
  if (n <? 10)%nat then ascii_of_nat (48 + n) else ascii_of_nat (55 + n).

Definition percent (n : nat) : string :=
  String "%" (String (hex_digit (n / 16)) (String (hex_digit (n mod 16)) EmptyString)).

(** Characters [encodeURIComponent] leaves alone:
    A-Z a-z 0-9 - _ . ! ~ * ' ( ) *)
Definition uri_unreserved (n : nat) : bool :=
  (((65 <=? n) && (n <=? 90)) || ((97 <=? n) && (n <=? 122))
   || ((48 <=? n) && (n <=? 57))
   || (n =? 45) || (n =? 95) || (n =? 46) || (n =? 33) || (n =? 126)
   || (n =? 42) || (n =? 39) || (n =? 40) || (n =? 41))%nat.

(** [encodeURIComponent]: other code units are percent-encoded through
    their UTF-8 bytes (two bytes from U+0080 on). *)
Fixpoint encodeURIComponent (s : string) : string :=
  match s with
  | EmptyString => EmptyString
  | String c r =>
      let n := nat_of_ascii c in
      (if uri_unreserved n then String c EmptyString
       else if (n <? 128)%nat then percent n
       else percent (192 + n / 64) ++ percent (128 + n mod 64))
      ++ encodeURIComponent r
  end.

End JsString.

(** ** JavaScript values (JSON data) and truthiness *)

Inductive jsval : Type :=
| JUndefined
| JNull
| JBool (b : bool)
| JNum (n : Z)
| JStr (s : string)
| JArr (l : list jsval)
| JObj (fields : list (string * jsval)).

(** [if (v)]: undefined, null, false, 0 and the empty string are falsy;
    every array and object is truthy. *)
Definition truthy (v : jsval) : bool :=
  match v with
  | JUndefined | JNull => false
  | JBool b => b
  | JNum n => negb (n =? 0)%Z
  | JStr s => negb (JsString.is_empty s)
  | JArr _ | JObj _ => true
  end.

(** ** JavaScript [Map]: insertion-ordered association list *)

Module JsMap.
Section Ops.
Context {A : Type}.

Fixpoint get (k : string) (m : list (string * A)) : option A :=
  match m with
  | [] => None
  | (k', a) :: r => if String.eqb k k' then Some a else get k r
  end.

(** [Map.prototype.delete]: the other entries keep their order. *)
Fixpoint delete (k : string) (m : list (string * A)) : list (string * A) :=
  match m with
  | [] => []
  | (k', a) :: r => if String.eqb k k' then r else (k', a) :: delete k r
  end.

(** [Map.prototype.set]: an existing key keeps its position, a new key
    goes to the end. *)
Fixpoint set (k : string) (a : A) (m : list (string * A)) : list (string * A) :=
  match m with
  | [] => [(k, a)]
  | (k', a') :: r =>
      if String.eqb k k' then (k, a) :: r else (k', a') :: set k a r
  end.

Definition keys (m : list (string * A)) : list string := map fst m.

(** [m.keys().next().value] *)
Definition first_key (m : list (string * A)) : option string :=
  match m with
  | [] => None
  | (k, _) :: _ => Some k
  end.

Definition size (m : list (string * A)) : nat := length m.
End Ops.
End JsMap.

(** ** utils.js: [SimpleCache] *)

Module SimpleCache.
Section Cache.
Context {V : Type}.

Record item := Item { value : V; timestamp : Z }.

Record t := Make {
  maxSize : Z;
  ttl : Z;
  cache : list (string * item)
}.

(** [new SimpleCache(maxSize, ttl)] *)
Definition new (maxSize ttl : Z) : t := Make maxSize ttl [].

Definition with_cache (c : t) (m : list (string * item)) : t :=
  Make (maxSize c) (ttl c) m.

(** [get(key)] at time [now = Date.now()]; [None] is JavaScript's null. *)
Definition get (now : Z) (key : string) (c : t) : option V * t :=
  match JsMap.get key (cache c) with
  | None => (None, c)
  | Some it =>
      if (now - timestamp it >? ttl c)%Z
      then (None, with_cache c (JsMap.delete key (cache c)))
      else (Some (value it),
            with_cache c (JsMap.set key it (JsMap.delete key (cache c))))
  end.

(** [set(key, value)] at time [now = Date.now()]. When the map is
    empty [firstKey] is undefined and the delete does nothing. *)
Definition set (now : Z) (key : string) (v : V) (c : t) : t :=
  let m :=
    if (Z.of_nat (JsMap.size (cache c)) >=? maxSize c)%Z
    then match JsMap.first_key (cache c) with
         | Some firstKey => JsMap.delete firstKey (cache c)
         | None => cache c
         end
    else cache c in
  with_cache c (JsMap.set key (Item v now) m).

Definition clear (c : t) : t := with_cache c [].

Definition size (c : t) : nat := JsMap.size (cache c).
End Cache.
Arguments item : clear implicits.
Arguments t : clear implicits.
End SimpleCache.

(** ** Errors, responses and the world outside the program *)

Record JsError := MkError { err_name : string; err_message : string }.

(** [new Error(msg)] *)
Definition Error (msg : string) : JsError := MkError "Error" msg.
(** What [fetch] rejects with when its signal is aborted. *)
Definition AbortError : JsError := MkError "AbortError" "The user aborted a request.".
(** What [fetch] rejects with on a connection-level failure. *)
Definition TypeError (msg : string) : JsError := MkError "TypeError" msg.
(** What [response.json()] rejects with on a malformed body. *)
Definition SyntaxError : JsError := MkError "SyntaxError" "Unexpected token in JSON".

(** [formatErrorMessage(error)] for an [Error] object:
    [error.message || 'An unexpected error occurred']. *)
Definition formatErrorMessage (error : JsError) : string :=
  if JsString.is_empty (err_message error)
  then "An unexpected error occurred"
  else err_message error.

(** An HTTP response: its status and what [response.json()] yields
    ([None]: the body is not JSON and [json()] rejects). *)
Record Response := MkResponse { status : Z; body : option jsval }.

(** [response.ok] *)
Definition ok (r : Response) : bool := ((200 <=? status r) && (status r <=? 299))%Z.

(** How the network answers one [fetch]: a response or a connection
    failure after [delay] milliseconds, or nothing at all. *)
Inductive NetBehaviour :=
| Responds (delay : nat) (r : Response)
| Fails (delay : nat) (msg : string)
| Hangs.

(** An object handed to the store: the properties [word] and [data], each
    possibly missing. Other properties are not modelled. *)
Module Entry.
Record t := Make { word : option string; data : option jsval }.

(** [!entry.word] *)
Definition word_falsy (e : t) : bool :=
  match word e with
  | None => true
  | Some s => JsString.is_empty s
  end.

(** The entry itself as a value, for [entry.data || entry]. *)
Definition to_js (e : t) : jsval :=
  JObj ((match word e with Some s => [("word", JStr s)] | None => [] end)
        ++ (match data e with Some d => [("data", d)] | None => [] end)).

(** [entry.data || entry] *)
Definition data_or_self (e : t) : jsval :=
  match data e with
  | Some d => if truthy d then d else to_js e
  | None => to_js e
  end.
End Entry.

(** A record of the object store 'dictionary' (keyPath 'word'). *)
Module StoreRecord.
Record t := Make { word : string; data : option jsval; timestamp : Z }.
End StoreRecord.

(** What the program does that can be seen from outside, oldest first. *)
Inductive Event :=
| EvCacheGet (key : string)
| EvCacheSet (key : string)
| EvIdbOpen
| EvIdbGet (key : string)
| EvIdbPut (key : string)
| EvIdbCount
| EvIdbClear
| EvIdbDelete (key : string)
| EvFetch (url : string)
| EvAbort
| EvSleep (ms : Z)
| EvSetBatch (n : nat)
| EvProgress (processed total : nat).

(** The oracle: whether db.js was loaded ([window.QuickDefineDB]), which
    IndexedDB requests fail (numbered in the order they are issued), and
    how the network answers each [fetch] (numbered likewise). *)
Record Env := MkEnv {
  dbClassLoaded : bool;
  idbFault : nat -> option JsError;
  network : nat -> NetBehaviour
}.

(** db.js: the fields of a [DictionaryDB] object. [db] tells whether the
    database handle is set; [initPromise] is absent, fulfilled
    ([Some None]) or rejected ([Some (Some e)]). *)
Record DictionaryDBObj := MkDB {
  db : bool;
  initPromise : option (option JsError)
}.

(** The mutable state: the clock, the manager's [hotCache] and [db]
    fields, the object store and the event trace. *)
Record World := MkWorld {
  clock : Z;
  hotCache : SimpleCache.t jsval;
  mgr_db : option DictionaryDBObj;
  idb : gmap string StoreRecord.t;
  idbSeq : nat;
  netSeq : nat;
  trace : list Event
}.

Definition set_clock (z : Z) (w : World) : World :=
  MkWorld z (hotCache w) (mgr_db w) (idb w) (idbSeq w) (netSeq w) (trace w).
Definition set_hotCache (c : SimpleCache.t jsval) (w : World) : World :=
  MkWorld (clock w) c (mgr_db w) (idb w) (idbSeq w) (netSeq w) (trace w).
Definition set_mgr_db (d : option DictionaryDBObj) (w : World) : World :=
  MkWorld (clock w) (hotCache w) d (idb w) (idbSeq w) (netSeq w) (trace w).
Definition set_idb (m : gmap string StoreRecord.t) (w : World) : World :=
  MkWorld (clock w) (hotCache w) (mgr_db w) m (idbSeq w) (netSeq w) (trace w).
Definition set_idbSeq (n : nat) (w : World) : World :=
  MkWorld (clock w) (hotCache w) (mgr_db w) (idb w) n (netSeq w) (trace w).
Definition set_netSeq (n : nat) (w : World) : World :=
  MkWorld (clock w) (hotCache w) (mgr_db w) (idb w) (idbSeq w) n (trace w).
Definition set_trace (t : list Event) (w : World) : World :=
  MkWorld (clock w) (hotCache w) (mgr_db w) (idb w) (idbSeq w) (netSeq w) t.

(** ** Asynchronous computations *)

Inductive Outcome (A : Type) : Type :=
| Returned (a : A)
| Thrown (e : JsError)
| Pending.
Arguments Returned {A} a.
Arguments Thrown {A} e.
Arguments Pending {A}.

Definition Async (A : Type) : Type := World -> Outcome A * World.

Definition ret {A} (a : A) : Async A := fun w => (Returned a, w).

Definition bind {A B} (m : Async A) (k : A -> Async B) : Async B :=
  fun w =>
    match m w with
    | (Returned a, w') => k a w'
    | (Thrown e, w') => (Thrown e, w')
    | (Pending, w') => (Pending, w')
    end.

Definition throw {A} (e : JsError) : Async A := fun w => (Thrown e, w).

(** [try { m } catch (error) { h error }]; a computation that never
    resumes never reaches the handler. *)
Definition try_catch {A} (m : Async A) (h : JsError -> Async A) : Async A :=
  fun w =>
    match m w with
    | (Thrown e, w') => h e w'
    | r => r
    end.

Notation "x <- c1 ;; c2" := (bind c1 (fun x => c2))
  (at level 100, c1 at next level, right associativity).
Notation "c1 ;; c2" := (bind c1 (fun _ => c2))
  (at level 100, right associativity).

(** [Date.now()] *)
Definition now : Async Z := fun w => (Returned (clock w), w).

Definition emit (e : Event) : Async unit :=
  fun w => (Returned tt, set_trace (trace w ++ [e]) w).

Definition advance (ms : Z) : Async unit :=
  fun w => (Returned tt, set_clock (clock w + Z.max 0 ms) w).

(** [await new Promise(resolve => setTimeout(resolve, ms))] *)
Definition sleep (ms : Z) : Async unit := emit (EvSleep ms) ;; advance ms.

Definition read {A} (f : World -> A) : Async A := fun w => (Returned (f w), w).
Definition modify (f : World -> World) : Async unit := fun w => (Returned tt, f w).

Definition truthy_opt (o : option jsval) : bool :=
  match o with
  | Some v => truthy v
  | None => false
  end.

(** ** The promise executor shared by [setBatch] (db.js) and [storeBatch]
    (background.js)

    Both functions have the same body up to the record they build. The
    [forEach] runs synchronously: an entry without a word is counted at
    once, any other entry issues a [put] request. The requests are then
    answered in the order they were issued. A failed request aborts the
    transaction: its writes are rolled back and the requests still
    waiting are answered by [onerror] with an AbortError. *)

Module Batch.
Record state := MkState {
  completed : nat;
  hasError : bool;
  settled : option (option JsError)
}.

Definition start : state := MkState 0 false None.

(** [resolve()]: only the first settlement counts. *)
Definition resolve (st : state) : state :=
  match settled st with
  | None => MkState (completed st) (hasError st) (Some None)
  | Some _ => st
  end.

(** [reject(e)] *)
Definition reject (e : JsError) (st : state) : state :=
  match settled st with
  | None => MkState (completed st) (hasError st) (Some (Some e))
  | Some _ => st
  end.

(** [completed++; if (completed === entries.length && !hasError) resolve()] *)
Definition complete_one (total : nat) (st : state) : state :=
  let st1 := MkState (S (completed st)) (hasError st) (settled st) in
  if (completed st1 =? total)%nat && negb (hasError st1) then resolve st1 else st1.

(** [request.onerror] *)
Definition onerror (e : JsError) (st : state) : state :=
  if hasError st then st
  else reject e (MkState (completed st) true (settled st)).

(** The [forEach]: the state after it and the requests it issued. *)
Fixpoint visit (mk : Entry.t -> StoreRecord.t) (total : nat)
    (entries : list Entry.t) (st : state) : state * list StoreRecord.t :=
  match entries with
  | [] => (st, [])
  | entry :: rest =>
      if Entry.word_falsy entry
      then visit mk total rest (complete_one total st)
      else let '(st', reqs) := visit mk total rest st in
           (st', mk entry :: reqs)
  end.

(** The answers to the requests; [tx] holds the writes of the running
    transaction and is [None] once it is aborted. *)
Fixpoint deliver (env : Env) (total : nat) (reqs : list StoreRecord.t)
    (seq : nat) (tx : option (gmap string StoreRecord.t)) (st : state)
  : state * option (gmap string StoreRecord.t) * nat :=
  match reqs with
  | [] => (st, tx, seq)
  | r :: rest =>
      match tx with
      | None => deliver env total rest seq None (onerror AbortError st)
      | Some m =>
          match idbFault env seq with
          | Some e => deliver env total rest (S seq) None (onerror e st)
          | None =>
              deliver env total rest (S seq)
                (Some (<[StoreRecord.word r := r]> m)) (complete_one total st)
          end
      end
  end.

(** [await new Promise((resolve, reject) => { ... })] *)
Definition run (env : Env) (mk : Z -> Entry.t -> StoreRecord.t)
    (entries : list Entry.t) : Async unit :=
  fun w =>
    let total := length entries in
    let '(st0, reqs) := visit (mk (clock w)) total entries start in
    let '(st, tx, seq) := deliver env total reqs (idbSeq w) (Some (idb w)) st0 in
    let w' :=
      set_idb (match tx with Some m => m | None => idb w end)
        (set_idbSeq seq
           (set_trace (trace w ++ map (fun r => EvIdbPut (StoreRecord.word r)) reqs) w)) in
    match settled st with
    | None => (Pending, w')
    | Some None => (Returned tt, w')
    | Some (Some e) => (Thrown e, w')
    end.
End Batch.

(** ** db.js: [DictionaryDB]

    The methods act on the object held in the manager's [db] field. *)

Module DictionaryDB.
Section Methods.
Variable env : Env.

(** [new DictionaryDB()] *)
Definition new : DictionaryDBObj := MkDB false None.

(** One IndexedDB request, answered by [onsuccess] or by [onerror]. *)
Definition request : Async unit :=
  fun w =>
    let w' := set_idbSeq (S (idbSeq w)) w in
    match idbFault env (idbSeq w) with
    | Some e => (Thrown e, w')
    | None => (Returned tt, w')
    end.

(** [init()]: the promise of the first call is kept and handed to
    every later call, fulfilled or rejected. *)
Definition init : Async unit :=
  fun w =>
    match mgr_db w with
    | None => (Thrown (TypeError "Cannot read properties of null"), w)
    | Some self =>
        match initPromise self with
        | Some None => (Returned tt, w)
        | Some (Some e) => (Thrown e, w)
        | None =>
            if db self then (Returned tt, w)
            else
              match (emit EvIdbOpen ;; request) w with
              | (Returned _, w') =>
                  (Returned tt, set_mgr_db (Some (MkDB true (Some None))) w')
              | (Thrown e, w') =>
                  (Thrown e, set_mgr_db (Some (MkDB false (Some (Some e)))) w')
              | (Pending, w') => (Pending, w')
              end
        end
    end.

(** [get(word)]: [request.result || null] *)
Definition get (word : string) : Async (option StoreRecord.t) :=
  init ;;
  let cleanWord := JsString.normalize word in
  emit (EvIdbGet cleanWord) ;;
  request ;;
  m <- read idb ;;
  ret (m !! cleanWord).

(** [{...entry, word: cleanWord, timestamp: Date.now()}] *)
Definition entryToStore (t : Z) (entry : Entry.t) : StoreRecord.t :=
  StoreRecord.Make
    (JsString.normalize (default EmptyString (Entry.word entry)))
    (Entry.data entry) t.

(** [set(entry)] *)
Definition set (entry : Entry.t) : Async unit :=
  init ;;
  if Entry.word_falsy entry
  then throw (Error "Dictionary entry must have a word property")
  else
    t <- now ;;
    let r := entryToStore t entry in
    emit (EvIdbPut (StoreRecord.word r)) ;;
    request ;;
    modify (fun w => set_idb (<[StoreRecord.word r := r]> (idb w)) w).

(** [setBatch(entries)] *)
Definition setBatch (entries : list Entry.t) : Async unit :=
  emit (EvSetBatch (length entries)) ;;
  init ;;
  Batch.run env entryToStore entries.

(** [count()] *)
Definition count : Async nat :=
  init ;;
  emit EvIdbCount ;;
  request ;;
  m <- read idb ;;
  ret (size m).

(** [clear()] *)
Definition clear : Async unit :=
  init ;;
  emit EvIdbClear ;;
  request ;;
  modify (set_idb ∅).

(** [delete(word)] *)
Definition delete (word : string) : Async unit :=
  init ;;
  let cleanWord := JsString.normalize word in
  emit (EvIdbDelete cleanWord) ;;
  request ;;
  modify (fun w => set_idb (base.delete cleanWord (idb w)) w).
End Methods.
End DictionaryDB.

(** ** background.js: [storeBatch] *)

Module Background.
(** [{word: entry.word.trim().toLowerCase(), data: entry.data || entry,
     timestamp: Date.now()}] *)
Definition recordOf (t : Z) (entry : Entry.t) : StoreRecord.t :=
  StoreRecord.Make
    (JsString.normalize (default EmptyString (Entry.word entry)))
    (Some (Entry.data_or_self entry)) t.

Definition storeBatch (env : Env) (entries : list Entry.t) : Async unit :=
  Batch.run env recordOf entries.
End Background.

(** ** utils.js: [fetchWithTimeout] *)

Section Fetch.
Variable env : Env.

(** One attempt: [setTimeout(() => controller.abort(), timeout)], then
    [await fetch(url, {...options, signal: controller.signal})], then
    [clearTimeout]. The request is answered before the timer fires, or
    the timer fires, [controller.abort()] cancels the request in flight
    and [fetch] rejects with an AbortError. The spread puts the local
    controller's signal last, so a signal passed in [options] is
    replaced and never reaches [fetch]. *)
Definition fetch (url : string) (timeout : Z) : Async Response :=
  fun w =>
    let w1 := set_netSeq (S (netSeq w)) (set_trace (trace w ++ [EvFetch url]) w) in
    let aborted : Outcome Response * World :=
      (Thrown AbortError,
       set_trace (trace w1 ++ [EvAbort]) (set_clock (clock w1 + Z.max 0 timeout) w1)) in
    match network env (netSeq w) with
    | Responds delay r =>
        if (Z.of_nat delay <? timeout)%Z
        then (Returned r, set_clock (clock w1 + Z.of_nat delay) w1)
        else aborted
    | Fails delay msg =>
        if (Z.of_nat delay <? timeout)%Z
        then (Thrown (TypeError msg), set_clock (clock w1 + Z.of_nat delay) w1)
        else aborted
    | Hangs => aborted
    end.

Fixpoint fetchWithTimeout (url : string) (timeout : Z) (retries : nat)
  : Async Response :=
  try_catch (fetch url timeout)
    (fun error =>
       if String.eqb (err_name error) "AbortError"
       then throw (Error "Request timeout")
       else
         match retries with
         | S retries' =>
             sleep 1000 ;;
             fetchWithTimeout url timeout retries'
         | O => throw error
         end).
End Fetch.

(** ** constants.js *)

Record Config := MkConfig {
  HOT_CACHE_MAX_SIZE : Z;
  HOT_CACHE_TTL : Z;
  API_BASE_URL : string;
  API_TIMEOUT : Z;
  API_RETRY_ATTEMPTS : nat
}.

Definition QUICKDEFINE_CONFIG : Config :=
  MkConfig 500 3600000 "https://api.dictionaryapi.dev/api/v2/entries/en" 10000 2.

(** ** utils.js: [DictionaryManager] *)

(** The object a lookup returns: each property may be missing. *)
Module Lookup.
Record t := Make {
  data : option jsval;
  source : option string;
  error : option string;
  message : option string
}.
End Lookup.

Module DictionaryManager.
Section Methods.
Variable env : Env.
Variable config : Config.

(** [new DictionaryManager(config)] in a world with the given clock,
    object store and counters. *)
Definition new (w : World) : World :=
  set_mgr_db None
    (set_hotCache
       (SimpleCache.new (HOT_CACHE_MAX_SIZE config) (HOT_CACHE_TTL config)) w).

(** [this.hotCache.get(key)] *)
Definition hotCache_get (key : string) : Async (option jsval) :=
  emit (EvCacheGet key) ;;
  t <- now ;;
  fun w =>
    let '(r, c) := SimpleCache.get t key (hotCache w) in
    (Returned r, set_hotCache c w).

(** [this.hotCache.set(key, value)] *)
Definition hotCache_set (key : string) (v : jsval) : Async unit :=
  emit (EvCacheSet key) ;;
  t <- now ;;
  modify (fun w => set_hotCache (SimpleCache.set t key v (hotCache w)) w).

Definition initDB : Async unit :=
  if negb (dbClassLoaded env) then ret tt
  else
    d <- read mgr_db ;;
    match d with
    | Some _ => ret tt
    | None =>
        modify (set_mgr_db (Some DictionaryDB.new)) ;;
        try_catch (DictionaryDB.init env)
          (fun _ => modify (set_mgr_db None))
    end.

(** [fetchFromAPI(word)]. The controller and the timer this function
    creates for itself act on nothing: the signal is handed over in
    [options] and replaced inside [fetchWithTimeout]. *)
Definition fetchFromAPI (word : string) : Async Lookup.t :=
  let url := (API_BASE_URL config ++ "/" ++ JsString.encodeURIComponent word)%string in
  try_catch
    (response <- fetchWithTimeout env url (API_TIMEOUT config)
                   (API_RETRY_ATTEMPTS config) ;;
     if negb (ok response)
     then
       if (status response =? 404)%Z
       then ret (Lookup.Make None None (Some "not_found") None)
       else throw (Error ("API error: " ++ JsString.of_Z (status response))%string)
     else
       match body response with
       | Some data => ret (Lookup.Make (Some data) None None None)
       | None => throw SyntaxError
       end)
    (fun error =>
       if String.eqb (err_name error) "AbortError"
       then ret (Lookup.Make None None (Some "timeout") None)
       else throw error).

(** Layer 2 of [getDefinition]: the result when IndexedDB has the
    word, [None] when the lookup falls through to the API. *)
Definition lookupIndexedDB (cleanWord : string) : Async (option Lookup.t) :=
  initDB ;;
  d <- read mgr_db ;;
  match d with
  | None => ret None
  | Some _ =>
      try_catch
        (dbResult <- DictionaryDB.get env cleanWord ;;
         match dbResult with
         | Some r =>
             match StoreRecord.data r with
             | Some v =>
                 if truthy v
                 then
                   hotCache_set ("word_" ++ cleanWord)%string v ;;
                   ret (Some (Lookup.Make (Some v) (Some "indexeddb") None None))
                 else ret None
             | None => ret None
             end
         | None => ret None
         end)
        (fun _ => ret None)
  end.

(** Layer 3 of [getDefinition] *)
Definition lookupAPI (cleanWord : string) : Async Lookup.t :=
  try_catch
    (apiResult <- fetchFromAPI cleanWord ;;
     match Lookup.data apiResult with
     | Some v =>
         if truthy v
         then
           hotCache_set ("word_" ++ cleanWord)%string v ;;
           d <- read mgr_db ;;
           match d with
           | Some _ =>
               try_catch
                 (DictionaryDB.set env (Entry.Make (Some cleanWord) (Some v)))
                 (fun _ => ret tt)
           | None => ret tt
           end ;;
           ret (Lookup.Make (Lookup.data apiResult) (Some "api")
                  (Lookup.error apiResult) (Lookup.message apiResult))
         else ret apiResult
     | None => ret apiResult
     end)
    (fun error =>
       ret (Lookup.Make None None (Some "network")
              (Some (formatErrorMessage error)))).

(** [getDefinition(word)] *)
Definition getDefinition (word : string) : Async Lookup.t :=
  let cleanWord := JsString.normalize word in
  hotCacheResult <- hotCache_get ("word_" ++ cleanWord)%string ;;
  if truthy_opt hotCacheResult
  then ret (Lookup.Make hotCacheResult (Some "hot_cache") None None)
  else
    found <- lookupIndexedDB cleanWord ;;
    match found with
    | Some result => ret result
    | None => lookupAPI cleanWord
    end.

(** [const batchSize = 100] of [preloadDictionary] *)
Definition batchSize : nat := 100.

(** [{word: entry.word?.trim().toLowerCase() || '', data: entry.data || entry}] *)
Definition formatEntry (entry : Entry.t) : Entry.t :=
  Entry.Make
    (Some (match Entry.word entry with
           | Some s => JsString.normalize s
           | None => EmptyString
           end))
    (Some (Entry.data_or_self entry)).

(** The [for] loop of [preloadDictionary], [onProgress] being given
    or not; a call of [onProgress] is recorded in the trace. *)
Equations? preloadLoop (entries : list Entry.t) (onProgress : bool)
    (i processed : nat) : Async unit by wf (length entries - i) lt :=
  preloadLoop entries onProgress i processed with le_lt_dec (length entries) i := {
    | left _ => ret tt
    | right _ =>
        let batch := take batchSize (drop i entries) in
        let formattedBatch := map formatEntry batch in
        DictionaryDB.setBatch env formattedBatch ;;
        let processed' := (processed + length batch)%nat in
        (if onProgress
         then emit (EvProgress processed' (length entries))
         else ret tt) ;;
        sleep 0 ;;
        preloadLoop entries onProgress (i + batchSize)%nat processed'
  }.
Proof. unfold batchSize. lia. Qed.

(** [preloadDictionary(entries, onProgress)] *)
Definition preloadDictionary (entries : list Entry.t) (onProgress : bool)
  : Async unit :=
  initDB ;;
  d <- read mgr_db ;;
  match d with
  | None => throw (Error "IndexedDB not available")
  | Some _ => preloadLoop entries onProgress 0 0
  end.
End Methods.
End DictionaryManager.

(** ** Vocabulary of the statements *)

(** Histories of a cache: the operations applied to a new cache, oldest
    first, where every [set] inserts a key that the cache does not hold
    at that moment (the keys inserted are distinct). *)
Module CacheHistory.
Section Hist.
Context {V : Type}.

Inductive op :=
| OpGet (now : Z) (key : string)
| OpSet (now : Z) (key : string) (v : V).

Definition key_of (o : op) : string :=
  match o with
  | OpGet _ k => k
  | OpSet _ k _ => k
  end.

Definition apply (c : SimpleCache.t V) (o : op) : SimpleCache.t V :=
  match o with
  | OpGet now k => snd (SimpleCache.get now k c)
  | OpSet now k v => SimpleCache.set now k v c
  end.

Definition run (c : SimpleCache.t V) (ops : list op) : SimpleCache.t V :=
  fold_left apply ops c.

Inductive History (N ttl : Z) : list op -> SimpleCache.t V -> Prop :=
| H_new : History N ttl [] (SimpleCache.new N ttl)
| H_get h c now k :
    History N ttl h c ->
    History N ttl (h ++ [OpGet now k]) (snd (SimpleCache.get now k c))
| H_set h c now k v :
    History N ttl h c ->
    JsMap.get k (SimpleCache.cache c) = None ->
    History N ttl (h ++ [OpSet now k v]) (SimpleCache.set now k v c).

(** The position (from 1) of the last operation of [h] that names
    [k], counted from position [i]; 0 when no operation names it. *)
Fixpoint last_use_from (i : nat) (h : list op) (k : string) : nat :=
  match h with
  | [] => 0
  | o :: r =>
      match last_use_from (S i) r k with
      | 0 => if String.eqb (key_of o) k then S i else 0
      | n => n
      end
  end.

(** When [k] was last accessed in [h]: larger is more recent. *)
Definition last_use (h : list op) (k : string) : nat := last_use_from 0 h k.
End Hist.
Arguments op : clear implicits.
End CacheHistory.

(** The first fault among the [n] IndexedDB requests numbered from [seq]. *)
Fixpoint first_fault (env : Env) (seq n : nat) : option JsError :=
  match n with
  | O => None
  | S n' =>
      match idbFault env seq with
      | Some e => Some e
      | None => first_fault env (S seq) n'
      end
  end.

(** The entries of a batch that are written: those with a word. *)
Definition written (entries : list Entry.t) : list Entry.t :=
  List.filter (fun e => negb (Entry.word_falsy e)) entries.

(** Writing records into the object store one after the other. *)
Definition put_all (rs : list StoreRecord.t) (m : gmap string StoreRecord.t)
  : gmap string StoreRecord.t :=
  fold_left (fun m r => <[StoreRecord.word r := r]> m) rs m.

(** The calls of [onProgress] and of [setBatch] recorded in a trace. *)
Definition progress_calls (t : list Event) : list (nat * nat) :=
  flat_map (fun e => match e with EvProgress p n => [(p, n)] | _ => [] end) t.

Definition setBatch_calls (t : list Event) : list nat :=
  flat_map (fun e => match e with EvSetBatch n => [n] | _ => [] end) t.

Definition fetch_calls (t : list Event) : list string :=
  flat_map (fun e => match e with EvFetch u => [u] | _ => [] end) t.

(** A [fetch] that is not answered before the deadline. *)
Definition times_out (timeout : Z) (b : NetBehaviour) : bool :=
  match b with
  | Responds delay _ | Fails delay _ => negb (Z.of_nat delay <? timeout)%Z
  | Hangs => true
  end.

(** A [fetch] that fails at the connection level before the deadline. *)
Definition fails_fast (timeout : Z) (b : NetBehaviour) : bool :=
  match b with
  | Fails delay _ => (Z.of_nat delay <? timeout)%Z
  | _ => false
  end.

(** The object store holds each record under its own word, and every
    word is in normal form. *)
Definition store_normalized (m : gmap string StoreRecord.t) : Prop :=
  forall k r, m !! k = Some r ->
    StoreRecord.word r = k /\ JsString.normalize k = k.

(** The operations that write to the object store. *)
Inductive StoreOp :=
| DbSet (entry : Entry.t)
| DbSetBatch (entries : list Entry.t)
| DbDelete (word : string)
| DbClear
| BgStoreBatch (entries : list Entry.t).

Definition store_step (env : Env) (o : StoreOp) : Async unit :=
  match o with
  | DbSet entry => DictionaryDB.set env entry
  | DbSetBatch entries => DictionaryDB.setBatch env entries
  | DbDelete word => DictionaryDB.delete env word
  | DbClear => DictionaryDB.clear env
  | BgStoreBatch entries => Background.storeBatch env entries
  end.

(** Worlds reached from an empty object store by such operations,
    whatever the oracle answers and however each operation ends. *)
Inductive StoreReach : World -> Prop :=
| SR_start w : idb w = ∅ -> StoreReach w
| SR_step env o w : StoreReach w -> StoreReach (snd (store_step env o w))
| SR_local w w' : StoreReach w -> idb w' = idb w -> StoreReach w'.

(** A string that does not begin with white space. *)
Definition starts_clean (s : string) : Prop :=
  match s with
  | EmptyString => True
  | String c _ => JsString.is_ws c = false
  end.

(** In the history [h] the entry [x] was last accessed before [y]. *)
Definition older {V : Type} (h : list (CacheHistory.op V))
    (x y : string * SimpleCache.item V) : Prop :=
  CacheHistory.last_use h (fst x) < CacheHistory.last_use h (fst y).

(** An operation that overwrites the key [k]. *)
Definition overwrites {V : Type} (k : string) (o : CacheHistory.op V) : bool :=
  match o with
  | CacheHistory.OpSet _ k' _ => String.eqb k' k
  | CacheHistory.OpGet _ _ => false
  end.

(** The map is well formed and every entry cached under [k] was inserted
    at time [T]. *)
Definition stamped {V : Type} (k : string) (T ttl : Z) (c : SimpleCache.t V) : Prop :=
  List.NoDup (JsMap.keys (SimpleCache.cache c))
  /\ SimpleCache.ttl c = ttl
  /\ forall it, JsMap.get k (SimpleCache.cache c) = Some it ->
                SimpleCache.timestamp it = T.

(** No request to IndexedDB fails. *)
Definition no_faults (env : Env) : Prop := forall n, idbFault env n = None.

(** A [DictionaryDB] object whose initialisation has not been rejected. *)
Definition usable (d : DictionaryDBObj) : Prop :=
  match initPromise d with
  | Some (Some _) => False
  | _ => True
  end.

(** The object store is ready: [init] returns at once. *)
Definition store_ready (env : Env) (w : World) : Prop :=
  DictionaryDB.init env w = (Returned tt, w).

(** The later world keeps the cache, the manager's [db], the object
    store and the request counter of the earlier one. *)
Definition same_stores (w w' : World) : Prop :=
  hotCache w' = hotCache w /\ mgr_db w' = mgr_db w
  /\ idb w' = idb w /\ idbSeq w' = idbSeq w.

(** The later trace continues the earlier one. *)
Definition extends (w w' : World) : Prop :=
  exists t, trace w' = trace w ++ t.

(** A computation that never stays pending and only adds to the trace. *)
Definition settles {A} (m : Async A) : Prop :=
  forall w, fst (m w) <> Pending /\ extends w (snd (m w)).

(** A computation that always returns a value. *)
Definition returns {A} (m : Async A) : Prop :=
  forall w, (exists a, fst (m w) = Returned a) /\ extends w (snd (m w)).

(** The URL [fetchFromAPI] requests for a word. *)
Definition api_url (config : Config) (word : string) : string :=
  (API_BASE_URL config ++ "/" ++ JsString.encodeURIComponent word)%string.

(** A computation whose first visible act is the event [ev]. *)
Definition starts_with {A} (ev : Event) (m : Async A) : Prop :=
  forall w, exists t, trace (snd (m w)) = trace w ++ ev :: t.

(** The ways the store tier can fail during a lookup: db.js is not
    loaded, opening the database fails, or the [get] request fails (on a
    database opened by this call or opened before). *)
Inductive StoreFailure (env : Env) (w : World) : Prop :=
| SF_not_loaded :
    dbClassLoaded env = false -> mgr_db w = None -> StoreFailure env w
| SF_open_fails e :
    dbClassLoaded env = true -> mgr_db w = None ->
    idbFault env (idbSeq w) = Some e -> StoreFailure env w
| SF_get_fails_fresh e :
    dbClassLoaded env = true -> mgr_db w = None ->
    idbFault env (idbSeq w) = None -> idbFault env (S (idbSeq w)) = Some e ->
    StoreFailure env w
| SF_get_fails e :
    mgr_db w = Some (MkDB true (Some None)) ->
    idbFault env (idbSeq w) = Some e -> StoreFailure env w.

(** The error kinds a lookup can report. *)
Definition known_error (o : option string) : Prop :=
  o = None \/ o = Some "not_found" \/ o = Some "timeout" \/ o = Some "network".

(** Every value the computation returns satisfies [P]. *)
Definition ensures {A} (P : A -> Prop) (m : Async A) : Prop :=
  forall w a w', m w = (Returned a, w') -> P a.

(** The cache holds no usable value for the word at the world's time. *)
Definition cache_miss (word : string) (w : World) : Prop :=
  truthy_opt
    (fst (SimpleCache.get (clock w)
            ("word_" ++ JsString.normalize word)%string (hotCache w))) = false.

(** Unfolding the plumbing of asynchronous computations. *)
Ltac run_async :=
  repeat (progress (unfold bind, read, modify, try_catch, emit, ret, throw, now,
                    DictionaryDB.request; simpl)).

(** The calls of [setBatch] and of [onProgress] in a trace, in order. *)
Definition batch_events (t : list Event) : list Event :=
  List.filter
    (fun e => match e with EvSetBatch _ | EvProgress _ _ => true | _ => false end) t.

(** The number of batches for [n] entries. *)
Definition batches (n : nat) : nat :=
  (n + (DictionaryManager.batchSize - 1)) / DictionaryManager.batchSize.

(** What batch [j] (from 0) of [n] entries shows: one [setBatch] with
    the entries of the batch, then one [onProgress] with the number of
    entries processed so far. *)
Definition batch_shows (n j : nat) : list Event :=
  [EvSetBatch (Nat.min DictionaryManager.batchSize (n - DictionaryManager.batchSize * j));
   EvProgress (Nat.min (DictionaryManager.batchSize * S j) n) n].

(** The key under which an entry is stored. *)
Definition entry_key (e : Entry.t) : string :=
  JsString.normalize (default EmptyString (Entry.word e)).

(** The store is there for a preload: db.js is loaded and the manager
    has not opened the database yet, or it has opened it. *)
Definition StoreAvailable (env : Env) (w : World) : Prop :=
  (dbClassLoaded env = true /\ mgr_db w = None)
  \/ mgr_db w = Some (MkDB true (Some None)).
(** * Facts about strings *)

Lemma is_ws_lower_char c : JsString.is_ws (JsString.lower_char c) = JsString.is_ws c.
Proof. destruct c as [[] [] [] [] [] [] [] []]; reflexivity. Qed.

Lemma lower_char_idem c :
  JsString.lower_char (JsString.lower_char c) = JsString.lower_char c.
Proof. destruct c as [[] [] [] [] [] [] [] []]; reflexivity. Qed.

Lemma toLowerCase_idem s :
  JsString.toLowerCase (JsString.toLowerCase s) = JsString.toLowerCase s.
Proof.
  induction s as [|c r IH]; simpl; [reflexivity|].
  now rewrite lower_char_idem, IH.
Qed.

Lemma trimStart_toLowerCase s :
  JsString.trimStart (JsString.toLowerCase s)
  = JsString.toLowerCase (JsString.trimStart s).
Proof.
  induction s as [|c r IH]; simpl; [reflexivity|].
  rewrite is_ws_lower_char. destruct (JsString.is_ws c); [exact IH | reflexivity].
Qed.

Lemma toLowerCase_empty s :
  JsString.toLowerCase s = EmptyString -> s = EmptyString.
Proof. destruct s; simpl; [reflexivity | discriminate]. Qed.

Lemma trimEnd_toLowerCase s :
  JsString.trimEnd (JsString.toLowerCase s)
  = JsString.toLowerCase (JsString.trimEnd s).
Proof.
  induction s as [|c r IH]; simpl; [reflexivity|].
  rewrite IH, is_ws_lower_char.
  destruct (JsString.trimEnd r) as [|c' r'] eqn:E; simpl.
  - destruct (JsString.is_ws c); reflexivity.
  - reflexivity.
Qed.


Lemma trimStart_clean s : starts_clean (JsString.trimStart s).
Proof.
  induction s as [|c r IH]; simpl; [exact I|].
  destruct (JsString.is_ws c) eqn:E; [exact IH | exact E].
Qed.

Lemma trimStart_of_clean s : starts_clean s -> JsString.trimStart s = s.
Proof. destruct s as [|c r]; simpl; [reflexivity|]. now intros ->. Qed.

Lemma trimEnd_clean s : starts_clean s -> starts_clean (JsString.trimEnd s).
Proof.
  destruct s as [|c r]; simpl; [exact id|]. intros Hc.
  destruct (JsString.trimEnd r); simpl; [rewrite Hc; exact Hc | exact Hc].
Qed.

Lemma trimEnd_idem s : JsString.trimEnd (JsString.trimEnd s) = JsString.trimEnd s.
Proof.
  induction s as [|c r IH]; simpl; [reflexivity|].
  destruct (JsString.trimEnd r) as [|c' r'] eqn:E.
  - destruct (JsString.is_ws c) eqn:W; simpl; [reflexivity | now rewrite W].
  - simpl in *. now rewrite IH.
Qed.

Lemma trim_idem s : JsString.trim (JsString.trim s) = JsString.trim s.
Proof.
  unfold JsString.trim.
  rewrite (trimStart_of_clean (JsString.trimEnd _)).
  - apply trimEnd_idem.
  - apply trimEnd_clean, trimStart_clean.
Qed.

Lemma trim_toLowerCase s :
  JsString.trim (JsString.toLowerCase s) = JsString.toLowerCase (JsString.trim s).
Proof.
  unfold JsString.trim. now rewrite trimStart_toLowerCase, trimEnd_toLowerCase.
Qed.

Lemma normalize_idem s :
  JsString.normalize (JsString.normalize s) = JsString.normalize s.
Proof.
  unfold JsString.normalize.
  now rewrite trim_toLowerCase, trim_idem, toLowerCase_idem.
Qed.

Lemma is_empty_true s : JsString.is_empty s = true <-> s = EmptyString.
Proof. destruct s; simpl; split; congruence. Qed.

(** * Facts about the insertion-ordered map *)

Section JsMapFacts.
Context {A : Type}.
Implicit Types (m : list (string * A)) (k : string) (a : A).

Lemma get_None_notin k m : JsMap.get k m = None <-> ~ In k (JsMap.keys m).
Proof.
  induction m as [|[k' a'] r IH]; simpl; [tauto|].
  destruct (String.eqb_spec k k') as [->|Hne].
  - split; [discriminate | intros H; exfalso; apply H; now left].
  - rewrite IH. split; [intros H [E|H']; [congruence | tauto] | tauto].
Qed.

Lemma get_Some_in k a m : JsMap.get k m = Some a -> In (k, a) m.
Proof.
  induction m as [|[k' a'] r IH]; simpl; [discriminate|].
  destruct (String.eqb_spec k k') as [->|Hne].
  - intros [= ->]. now left.
  - intros H. right. now apply IH.
Qed.

Lemma set_absent k a m : JsMap.get k m = None -> JsMap.set k a m = m ++ [(k, a)].
Proof.
  induction m as [|[k' a'] r IH]; simpl; [reflexivity|].
  destruct (String.eqb k k'); [discriminate|]. intros H. now rewrite IH.
Qed.

Lemma get_set_eq k a m : JsMap.get k (JsMap.set k a m) = Some a.
Proof.
  induction m as [|[k' a'] r IH]; simpl.
  - now rewrite String.eqb_refl.
  - destruct (String.eqb k k') eqn:E; simpl.
    + now rewrite String.eqb_refl.
    + now rewrite E.
Qed.

Lemma get_set_ne k k' a m : k' <> k -> JsMap.get k' (JsMap.set k a m) = JsMap.get k' m.
Proof.
  intros Hne. induction m as [|[k0 a0] r IH]; simpl.
  - destruct (String.eqb_spec k' k); [contradiction | reflexivity].
  - destruct (String.eqb_spec k k0) as [->|H0]; simpl.
    + destruct (String.eqb_spec k' k0); [contradiction | reflexivity].
    + now rewrite IH.
Qed.

Lemma get_delete_ne k k' m : k' <> k -> JsMap.get k' (JsMap.delete k m) = JsMap.get k' m.
Proof.
  intros Hne. induction m as [|[k0 a0] r IH]; simpl; [reflexivity|].
  destruct (String.eqb_spec k k0) as [->|H0]; simpl.
  - destruct (String.eqb_spec k' k0); [contradiction | reflexivity].
  - now rewrite IH.
Qed.

Lemma delete_absent k m : JsMap.get k m = None -> JsMap.delete k m = m.
Proof.
  induction m as [|[k0 a0] r IH]; simpl; [reflexivity|].
  destruct (String.eqb k k0); [discriminate|]. intros H. now rewrite IH.
Qed.

Lemma in_delete x k m : In x (JsMap.delete k m) -> In x m.
Proof.
  induction m as [|[k0 a0] r IH]; simpl; [tauto|].
  destruct (String.eqb k k0); simpl; [tauto|]. intros [H|H]; [now left | right; now apply IH].
Qed.

Lemma keys_delete_in k' k m : In k' (JsMap.keys (JsMap.delete k m)) -> In k' (JsMap.keys m).
Proof.
  unfold JsMap.keys. rewrite !in_map_iff. intros [x [E H]]. exists x. split; [exact E|].
  eapply in_delete; eassumption.
Qed.

Lemma get_delete_eq k m : List.NoDup (JsMap.keys m) -> JsMap.get k (JsMap.delete k m) = None.
Proof.
  induction m as [|[k0 a0] r IH]; simpl; [reflexivity|].
  intros Hnd. apply List.NoDup_cons_iff in Hnd as [Hnin Hnd].
  destruct (String.eqb_spec k k0) as [->|H0]; simpl.
  - now apply get_None_notin.
  - destruct (String.eqb_spec k k0); [contradiction|]. now apply IH.
Qed.

Lemma NoDup_keys_delete k m : List.NoDup (JsMap.keys m) -> List.NoDup (JsMap.keys (JsMap.delete k m)).
Proof.
  induction m as [|[k0 a0] r IH]; simpl; [exact id|].
  intros Hnd. apply List.NoDup_cons_iff in Hnd as [Hnin Hnd].
  destruct (String.eqb k k0); simpl; [exact Hnd|].
  apply List.NoDup_cons_iff. split; [|now apply IH].
  intros H. apply Hnin. eapply keys_delete_in; eassumption.
Qed.

Lemma length_delete_in k m :
  JsMap.get k m <> None -> S (length (JsMap.delete k m)) = length m.
Proof.
  induction m as [|[k0 a0] r IH]; simpl; [congruence|].
  destruct (String.eqb k k0); simpl; [reflexivity|]. intros H. now rewrite IH.
Qed.

Lemma length_set_present k a m :
  JsMap.get k m <> None -> length (JsMap.set k a m) = length m.
Proof.
  induction m as [|[k0 a0] r IH]; simpl; [congruence|].
  destruct (String.eqb k k0); simpl; [reflexivity|]. intros H. now rewrite IH.
Qed.

Lemma keys_set_present k a m :
  JsMap.get k m <> None -> JsMap.keys (JsMap.set k a m) = JsMap.keys m.
Proof.
  induction m as [|[k0 a0] r IH]; simpl; [congruence|].
  destruct (String.eqb_spec k k0) as [->|]; simpl; [reflexivity|].
  intros H. now rewrite IH.
Qed.

Lemma sorted_delete (R : string * A -> string * A -> Prop) k m :
  StronglySorted R m -> StronglySorted R (JsMap.delete k m).
Proof.
  induction m as [|[k0 a0] r IH]; simpl; [exact id|].
  intros Hs. apply StronglySorted_inv in Hs as [Hs Hall].
  destruct (String.eqb k k0); [exact Hs|].
  constructor; [now apply IH|].
  rewrite List.Forall_forall in *. intros x Hx. apply Hall. eapply in_delete; eassumption.
Qed.

Lemma sorted_snoc (R : string * A -> string * A -> Prop) m x :
  StronglySorted R m -> (forall y, In y m -> R y x) -> StronglySorted R (m ++ [x]).
Proof.
  induction m as [|y r IH]; simpl; intros Hs Hx.
  - constructor; constructor.
  - apply StronglySorted_inv in Hs as [Hs Hall]. constructor.
    + apply IH; [exact Hs | intros z Hz; apply Hx; now right].
    + apply List.Forall_app. split; [exact Hall|]. constructor; [|constructor].
      apply Hx. now left.
Qed.
End JsMapFacts.

Section JsMapFacts2.
Context {A : Type}.
Implicit Types (m : list (string * A)) (k : string) (a : A).

Lemma keys_set_absent k a m :
  JsMap.get k m = None -> JsMap.keys (JsMap.set k a m) = JsMap.keys m ++ [k].
Proof.
  intros H. rewrite set_absent by exact H. unfold JsMap.keys. now rewrite map_app.
Qed.

Lemma NoDup_keys_set k a m :
  List.NoDup (JsMap.keys m) -> List.NoDup (JsMap.keys (JsMap.set k a m)).
Proof.
  intros Hnd. destruct (JsMap.get k m) eqn:E.
  - rewrite keys_set_present; [exact Hnd | congruence].
  - rewrite keys_set_absent by exact E.
    apply List.NoDup_app; [exact Hnd | constructor; [intros []|constructor] |].
    intros x Hx [<-|[]]. now apply get_None_notin in E.
Qed.

Lemma get_delete_Some k k' a m :
  List.NoDup (JsMap.keys m) ->
  JsMap.get k (JsMap.delete k' m) = Some a -> JsMap.get k m = Some a.
Proof.
  intros Hnd. destruct (String.eqb_spec k k') as [->|Hne].
  - rewrite get_delete_eq by exact Hnd. discriminate.
  - now rewrite get_delete_ne.
Qed.

Lemma in_delete_key_ne x k m :
  List.NoDup (JsMap.keys m) -> In x (JsMap.delete k m) -> fst x <> k.
Proof.
  intros Hnd Hin E.
  pose proof (get_delete_eq k m Hnd) as Hg. apply get_None_notin in Hg.
  apply Hg. unfold JsMap.keys. apply in_map_iff. exists x. now split.
Qed.

Lemma sorted_weaken (R R' : string * A -> string * A -> Prop) m :
  StronglySorted R m ->
  (forall x y, In x m -> In y m -> R x y -> R' x y) ->
  StronglySorted R' m.
Proof.
  induction m as [|x r IH]; intros Hs Himp; [constructor|].
  apply StronglySorted_inv in Hs as [Hs Hall]. constructor.
  - apply IH; [exact Hs|]. intros y z Hy Hz. apply Himp; now right.
  - rewrite List.Forall_forall in *. intros y Hy.
    apply Himp; [now left | now right | now apply Hall].
Qed.

Lemma delete_first k a m : JsMap.delete k ((k, a) :: m) = m.
Proof. simpl. now rewrite String.eqb_refl. Qed.
End JsMapFacts2.

(** * Facts about [SimpleCache] *)

Section CacheFacts.
Context {V : Type}.
Import CacheHistory.
Implicit Types (c : SimpleCache.t V) (h : list (op V)) (k : string).

Lemma last_use_from_snoc i h o k :
  last_use_from i (h ++ [o]) k
  = if String.eqb (key_of o) k then S (i + length h) else last_use_from i h k.
Proof.
  revert i. induction h as [|o' r IH]; intros i; simpl.
  - rewrite Nat.add_0_r. reflexivity.
  - rewrite IH. destruct (String.eqb (key_of o) k).
    + f_equal. lia.
    + reflexivity.
Qed.

Lemma last_use_from_le i h k : last_use_from i h k <= i + length h.
Proof.
  revert i. induction h as [|o r IH]; intros i; simpl; [lia|].
  specialize (IH (S i)). destruct (last_use_from (S i) r k); [|lia].
  destruct (String.eqb (key_of o) k); lia.
Qed.

Lemma last_use_snoc_same h o : last_use (h ++ [o]) (key_of o) = S (length h).
Proof. unfold last_use. rewrite last_use_from_snoc, String.eqb_refl. reflexivity. Qed.

Lemma last_use_snoc_other h o k :
  key_of o <> k -> last_use (h ++ [o]) k = last_use h k.
Proof.
  intros Hne. unfold last_use. rewrite last_use_from_snoc.
  destruct (String.eqb_spec (key_of o) k); [contradiction | reflexivity].
Qed.

Lemma last_use_le h k : last_use h k <= length h.
Proof. apply (last_use_from_le 0). Qed.


Lemma older_sorted_NoDup h (m : list (string * SimpleCache.item V)) :
  StronglySorted (older h) m -> List.NoDup (JsMap.keys m).
Proof.
  induction m as [|x r IH]; intros Hs; simpl; [constructor|].
  apply StronglySorted_inv in Hs as [Hs Hall]. constructor; [|now apply IH].
  intros Hin. unfold JsMap.keys in Hin. apply in_map_iff in Hin as [y [E Hy]].
  rewrite List.Forall_forall in Hall. specialize (Hall y Hy).
  unfold older in Hall. rewrite E in Hall. lia.
Qed.

Lemma older_snoc_keep h o (m : list (string * SimpleCache.item V)) :
  StronglySorted (older h) m ->
  (forall x, In x m -> fst x <> key_of o) ->
  StronglySorted (older (h ++ [o])) m.
Proof.
  intros Hs Hne. eapply sorted_weaken; [exact Hs|].
  intros x y Hx Hy. unfold older.
  rewrite !last_use_snoc_other; auto using not_eq_sym.
Qed.

Lemma older_snoc_push h o (m : list (string * SimpleCache.item V)) it :
  StronglySorted (older h) m ->
  (forall x, In x m -> fst x <> key_of o) ->
  StronglySorted (older (h ++ [o])) (m ++ [(key_of o, it)]).
Proof.
  intros Hs Hne. apply sorted_snoc; [now apply older_snoc_keep|].
  intros y Hy. unfold older. simpl.
  rewrite last_use_snoc_same, last_use_snoc_other by (apply not_eq_sym; auto).
  pose proof (last_use_le h (fst y)). lia.
Qed.

Lemma absent_keys_ne k (m : list (string * SimpleCache.item V)) :
  JsMap.get k m = None -> forall x, In x m -> fst x <> k.
Proof.
  intros Hg x Hx E. apply get_None_notin in Hg. apply Hg.
  unfold JsMap.keys. apply in_map_iff. exists x. now split.
Qed.

(** The iteration order of a cache is the order of last access. *)
Lemma history_sorted N ttl h c :
  History N ttl h c ->
  StronglySorted (older h) (SimpleCache.cache c)
  /\ SimpleCache.maxSize c = N /\ SimpleCache.ttl c = ttl.
Proof.
  induction 1 as [|h c now k Hh [IHs [IHn IHt]]|h c now k v Hh [IHs [IHn IHt]] Hfresh].
  - simpl. repeat split. constructor.
  - pose proof (older_sorted_NoDup _ _ IHs) as Hnd.
    unfold SimpleCache.get.
    destruct (JsMap.get k (SimpleCache.cache c)) as [it|] eqn:Hg; simpl.
    + destruct (now - SimpleCache.timestamp it >? SimpleCache.ttl c)%Z; simpl.
      * repeat split; auto.
        apply (older_snoc_keep h (OpGet now k)); [now apply sorted_delete|].
        intros x Hx. simpl. eapply in_delete_key_ne; eassumption.
      * repeat split; auto.
        rewrite set_absent by (now apply get_delete_eq).
        apply (older_snoc_push h (OpGet now k)); [now apply sorted_delete|].
        intros x Hx. simpl. eapply in_delete_key_ne; eassumption.
    + repeat split; auto.
      apply (older_snoc_keep h (OpGet now k)); [exact IHs|].
      simpl. now apply absent_keys_ne.
  - pose proof (older_sorted_NoDup _ _ IHs) as Hnd.
    unfold SimpleCache.set. simpl. repeat split; auto.
    set (m := if (Z.of_nat (JsMap.size (SimpleCache.cache c)) >=? SimpleCache.maxSize c)%Z
              then match JsMap.first_key (SimpleCache.cache c) with
                   | Some firstKey => JsMap.delete firstKey (SimpleCache.cache c)
                   | None => SimpleCache.cache c
                   end
              else SimpleCache.cache c).
    assert (Hsub : forall x, In x m -> In x (SimpleCache.cache c)).
    { subst m. destruct (_ >=? _)%Z; [|auto].
      destruct (JsMap.first_key _); [|auto]. intros x. apply in_delete. }
    assert (Hsm : StronglySorted (older h) m).
    { subst m. destruct (_ >=? _)%Z; [|auto].
      destruct (JsMap.first_key _); [|auto]. now apply sorted_delete. }
    assert (Hne : forall x, In x m -> fst x <> k).
    { intros x Hx. eapply absent_keys_ne; eauto. }
    rewrite set_absent.
    + now apply (older_snoc_push h (OpSet now k v)).
    + apply get_None_notin. intros Hin. unfold JsMap.keys in Hin.
      apply in_map_iff in Hin as [x [E Hx]]. now apply (Hne x).
Qed.

Lemma set_full_fresh c now k v :
  (Z.of_nat (SimpleCache.size c) >= SimpleCache.maxSize c)%Z ->
  JsMap.get k (SimpleCache.cache c) = None ->
  SimpleCache.cache (SimpleCache.set now k v c)
  = tl (SimpleCache.cache c) ++ [(k, SimpleCache.Item v now)].
Proof.
  intros Hfull Hfresh. unfold SimpleCache.set, SimpleCache.size in *. simpl.
  destruct (Z.geb_spec (Z.of_nat (JsMap.size (SimpleCache.cache c))) (SimpleCache.maxSize c)) as [_|]; [|lia].
  destruct (SimpleCache.cache c) as [|[k0 a0] r] eqn:E; simpl.
  - reflexivity.
  - rewrite String.eqb_refl. simpl in Hfresh.
    destruct (String.eqb k k0); [discriminate|]. now apply set_absent.
Qed.
End CacheFacts.

(** ** The claims about the cache *)

Section CacheClaims.
Import CacheHistory.

Lemma lru_eviction_general (V : Type) (N ttl : Z) (h : list (op V))
    (c : SimpleCache.t V) (now : Z) (k : string) (v : V) :
  History N ttl h c ->
  Z.of_nat (SimpleCache.size c) = N ->
  JsMap.get k (SimpleCache.cache c) = None ->
  SimpleCache.cache (SimpleCache.set now k v c)
  = tl (SimpleCache.cache c) ++ [(k, SimpleCache.Item v now)]
  /\ (forall victim, JsMap.first_key (SimpleCache.cache c) = Some victim ->
      forall k', In k' (JsMap.keys (tl (SimpleCache.cache c))) ->
                 last_use h victim < last_use h k').
Proof.
  intros Hh Hsz Hfresh. destruct (history_sorted _ _ _ _ Hh) as [Hs [Hn _]].
  split.
  - apply set_full_fresh; [lia | exact Hfresh].
  - intros victim Hv k' Hk'.
    destruct (SimpleCache.cache c) as [|[k0 a0] r]; simpl in *; [discriminate|].
    injection Hv as ->. apply StronglySorted_inv in Hs as [_ Hall].
    unfold JsMap.keys in Hk'. apply in_map_iff in Hk' as [y [<- Hy]].
    rewrite List.Forall_forall in Hall. exact (Hall y Hy).
Qed.

Lemma get_promotes (V : Type) (N ttl : Z) (h : list (op V))
    (c : SimpleCache.t V) (now : Z) (k : string) (v : V) :
  History N ttl h c ->
  fst (SimpleCache.get now k c) = Some v ->
  exists it,
    SimpleCache.value it = v
    /\ JsMap.get k (SimpleCache.cache c) = Some it
    /\ SimpleCache.cache (snd (SimpleCache.get now k c))
       = JsMap.delete k (SimpleCache.cache c) ++ [(k, it)].
Proof.
  intros Hh. destruct (history_sorted _ _ _ _ Hh) as [Hs _].
  pose proof (older_sorted_NoDup _ _ Hs) as Hnd.
  unfold SimpleCache.get.
  destruct (JsMap.get k (SimpleCache.cache c)) as [it|] eqn:Hg; simpl; [|discriminate].
  destruct (now - SimpleCache.timestamp it >? SimpleCache.ttl c)%Z; simpl; [discriminate|].
  intros [= <-]. exists it. repeat split.
  apply set_absent. now apply get_delete_eq.
Qed.

Lemma get_hit (V : Type) (c : SimpleCache.t V) (now : Z) (k : string)
    (it : SimpleCache.item V) :
  JsMap.get k (SimpleCache.cache c) = Some it ->
  (now - SimpleCache.timestamp it <= SimpleCache.ttl c)%Z ->
  SimpleCache.get now k c
  = (Some (SimpleCache.value it),
     SimpleCache.with_cache c
       (JsMap.set k it (JsMap.delete k (SimpleCache.cache c)))).
Proof.
  intros Hg Hle. unfold SimpleCache.get. rewrite Hg.
  destruct (Z.gtb_spec (now - SimpleCache.timestamp it) (SimpleCache.ttl c));
    [lia | reflexivity].
Qed.

Lemma get_absent (V : Type) (c : SimpleCache.t V) (now : Z) (k : string) :
  JsMap.get k (SimpleCache.cache c) = None ->
  SimpleCache.get now k c = (None, c).
Proof. intros Hg. unfold SimpleCache.get. now rewrite Hg. Qed.

Lemma lru_scenario (t1 t2 t3 t4 t5 t6 t7 : Z) :
  (t3 - t1 <= 1000)%Z -> (t6 - t1 <= 1000)%Z -> (t7 - t4 <= 1000)%Z ->
  let c2 := SimpleCache.set t2 "b" 2%Z (SimpleCache.set t1 "a" 1%Z (SimpleCache.new 2 1000)) in
  let g3 := SimpleCache.get t3 "a" c2 in
  let c4 := SimpleCache.set t4 "c" 3%Z (snd g3) in
  let g5 := SimpleCache.get t5 "b" c4 in
  let g6 := SimpleCache.get t6 "a" (snd g5) in
  let g7 := SimpleCache.get t7 "c" (snd g6) in
  fst g3 = Some 1%Z
  /\ JsMap.keys (SimpleCache.cache c4) = ["a"; "c"]
  /\ fst g5 = None /\ fst g6 = Some 1%Z /\ fst g7 = Some 3%Z.
Proof.
  intros H3 H6 H7 c2 g3 c4 g5 g6 g7.
  assert (E2 : c2 = SimpleCache.Make 2 1000
                      [("a", SimpleCache.Item 1%Z t1); ("b", SimpleCache.Item 2%Z t2)])
    by reflexivity.
  assert (E3 : g3 = (Some 1%Z,
                     SimpleCache.Make 2 1000
                       [("b", SimpleCache.Item 2%Z t2); ("a", SimpleCache.Item 1%Z t1)])).
  { subst g3. rewrite E2.
    now rewrite (get_hit Z _ t3 "a" (SimpleCache.Item 1%Z t1)) by (simpl; auto). }
  assert (E4 : c4 = SimpleCache.Make 2 1000
                      [("a", SimpleCache.Item 1%Z t1); ("c", SimpleCache.Item 3%Z t4)]).
  { subst c4. rewrite E3. reflexivity. }
  assert (E5 : g5 = (None, c4)).
  { subst g5. rewrite E4. now rewrite get_absent by reflexivity. }
  assert (E6 : g6 = (Some 1%Z,
                     SimpleCache.Make 2 1000
                       [("c", SimpleCache.Item 3%Z t4); ("a", SimpleCache.Item 1%Z t1)])).
  { subst g6. rewrite E5, E4.
    now rewrite (get_hit Z _ t6 "a" (SimpleCache.Item 1%Z t1)) by (simpl; auto). }
  assert (E7 : fst g7 = Some 3%Z).
  { subst g7. rewrite E6.
    now rewrite (get_hit Z _ t7 "c" (SimpleCache.Item 3%Z t4)) by (simpl; auto). }
  rewrite E3, E4, E5, E6, E7. repeat split.
Qed.
End CacheClaims.

(** C4. When a cache that holds N entries, N its capacity, receives a
    key it does not hold, exactly the first entry in iteration order is
    evicted and the new entry goes to the end; in every history of gets
    and inserts of distinct keys that first entry is the one whose last
    access is the oldest, and a get that returns a value moves its entry
    to the most recent position. With capacity 2 and a TTL of 1000 ms:
    set a 1, set b 2, get a, set c 3 leaves the keys a and c; then get b
    is absent, get a is 1 and get c is 3. *)
Theorem C4_lru_eviction :
  (forall (V : Type) (N ttl : Z) (h : list (CacheHistory.op V))
          (c : SimpleCache.t V) (now : Z) (k : string) (v : V),
      CacheHistory.History N ttl h c ->
      Z.of_nat (SimpleCache.size c) = N ->
      JsMap.get k (SimpleCache.cache c) = None ->
      SimpleCache.cache (SimpleCache.set now k v c)
      = tl (SimpleCache.cache c) ++ [(k, SimpleCache.Item v now)]
      /\ (forall victim, JsMap.first_key (SimpleCache.cache c) = Some victim ->
          forall k', In k' (JsMap.keys (tl (SimpleCache.cache c))) ->
                     CacheHistory.last_use h victim < CacheHistory.last_use h k'))
  /\ (forall (V : Type) (N ttl : Z) (h : list (CacheHistory.op V))
             (c : SimpleCache.t V) (now : Z) (k : string) (v : V),
      CacheHistory.History N ttl h c ->
      fst (SimpleCache.get now k c) = Some v ->
      exists it,
        SimpleCache.value it = v
        /\ JsMap.get k (SimpleCache.cache c) = Some it
        /\ SimpleCache.cache (snd (SimpleCache.get now k c))
           = JsMap.delete k (SimpleCache.cache c) ++ [(k, it)])
  /\ (forall t1 t2 t3 t4 t5 t6 t7 : Z,
      (t3 - t1 <= 1000)%Z -> (t6 - t1 <= 1000)%Z -> (t7 - t4 <= 1000)%Z ->
      let c2 := SimpleCache.set t2 "b" 2%Z
                  (SimpleCache.set t1 "a" 1%Z (SimpleCache.new 2 1000)) in
      let g3 := SimpleCache.get t3 "a" c2 in
      let c4 := SimpleCache.set t4 "c" 3%Z (snd g3) in
      let g5 := SimpleCache.get t5 "b" c4 in
      let g6 := SimpleCache.get t6 "a" (snd g5) in
      let g7 := SimpleCache.get t7 "c" (snd g6) in
      fst g3 = Some 1%Z
      /\ JsMap.keys (SimpleCache.cache c4) = ["a"; "c"]
      /\ fst g5 = None /\ fst g6 = Some 1%Z /\ fst g7 = Some 3%Z).
Proof.
  split; [|split].
  - intros. now apply lru_eviction_general with (N := N) (ttl := ttl).
  - intros. now apply get_promotes with (N := N) (ttl := ttl) (h := h).
  - intros. now apply lru_scenario.
Qed.

Lemma C4_lru_eviction_witness :
  let h := [CacheHistory.OpSet 0%Z "a" 1%Z; CacheHistory.OpSet 1%Z "b" 2%Z;
            CacheHistory.OpGet 2%Z "a"] in
  let c := CacheHistory.run (SimpleCache.new 2 1000) h in
  SimpleCache.cache (SimpleCache.set 3%Z "c" 3%Z c)
  = [("a", SimpleCache.Item 1%Z 0%Z); ("c", SimpleCache.Item 3%Z 3%Z)]
  /\ CacheHistory.last_use h "b" < CacheHistory.last_use h "a"
  /\ fst (SimpleCache.get 4%Z "b" (SimpleCache.set 3%Z "c" 3%Z c)) = None.
Proof.
  intros h c.
  assert (Hh : CacheHistory.History 2 1000 h c).
  { apply (CacheHistory.H_get 2 1000
             [CacheHistory.OpSet 0%Z "a" 1%Z; CacheHistory.OpSet 1%Z "b" 2%Z]
             _ 2%Z "a").
    apply (CacheHistory.H_set 2 1000 [CacheHistory.OpSet 0%Z "a" 1%Z] _ 1%Z "b" 2%Z);
      [|reflexivity].
    apply (CacheHistory.H_set 2 1000 [] _ 0%Z "a" 1%Z); [|reflexivity].
    apply CacheHistory.H_new. }
  destruct C4_lru_eviction as [Hgen [_ Hscen]].
  destruct (Hgen Z 2%Z 1000%Z h c 3%Z "c" 3%Z Hh eq_refl eq_refl) as [Hcache Hold].
  split; [exact Hcache|]. split.
  - apply (Hold "b" eq_refl "a"). simpl. now left.
  - destruct (Hscen 0%Z 1%Z 2%Z 3%Z 4%Z 5%Z 6%Z) as [_ [_ [Hb _]]]; try lia.
    exact Hb.
Defined.

(** C2, as stated, fails: with capacity 2 and the keys a and b cached,
    overwriting b evicts a; the key set changes and the occupancy drops
    from 2 to 1. *)
Lemma C2_counterexample :
  let c := SimpleCache.set 0 "b" 2%Z
             (SimpleCache.set 0 "a" 1%Z (SimpleCache.new 2 1000)) in
  let c' := SimpleCache.set 1 "b" 5%Z c in
  Z.of_nat (SimpleCache.size c) = SimpleCache.maxSize c
  /\ JsMap.get "b" (SimpleCache.cache c) = Some (SimpleCache.Item 2%Z 0%Z)
  /\ JsMap.keys (SimpleCache.cache c) = ["a"; "b"]
  /\ JsMap.keys (SimpleCache.cache c') = ["b"]
  /\ JsMap.get "a" (SimpleCache.cache c') = None
  /\ SimpleCache.size c' <> SimpleCache.size c.
Proof. vm_compute. repeat split; discriminate. Qed.

(** C2, amended. In a cache at capacity, [set k v] for a key that is
    present stores the new value for [k] and always evicts the first
    entry in iteration order. When that entry belongs to another key it
    is removed, the occupancy drops by one, and [k] keeps its position;
    when it is [k] itself, [k] moves to the most recent position and the
    occupancy is unchanged. Every entry other than [k] and the first one
    is unchanged. *)
Theorem C2_overwrite_at_capacity (V : Type) (c : SimpleCache.t V)
    (now : Z) (k : string) (v : V) (k0 : string) (it0 : SimpleCache.item V)
    (rest : list (string * SimpleCache.item V)) :
  List.NoDup (JsMap.keys (SimpleCache.cache c)) ->
  SimpleCache.cache c = (k0, it0) :: rest ->
  (Z.of_nat (SimpleCache.size c) >= SimpleCache.maxSize c)%Z ->
  JsMap.get k (SimpleCache.cache c) <> None ->
  let c' := SimpleCache.set now k v c in
  JsMap.get k (SimpleCache.cache c') = Some (SimpleCache.Item v now)
  /\ (k0 = k ->
      SimpleCache.cache c' = rest ++ [(k, SimpleCache.Item v now)]
      /\ SimpleCache.size c' = SimpleCache.size c)
  /\ (k0 <> k ->
      SimpleCache.cache c' = JsMap.set k (SimpleCache.Item v now) rest
      /\ JsMap.get k0 (SimpleCache.cache c') = None
      /\ S (SimpleCache.size c') = SimpleCache.size c)
  /\ (forall k', k' <> k -> k' <> k0 ->
      JsMap.get k' (SimpleCache.cache c') = JsMap.get k' (SimpleCache.cache c)).
Proof.
  intros Hnd Hc Hfull Hin c'.
  assert (Hc' : SimpleCache.cache c'
                = JsMap.set k (SimpleCache.Item v now) rest).
  { subst c'. unfold SimpleCache.set, SimpleCache.size in *. simpl.
    destruct (Z.geb_spec (Z.of_nat (JsMap.size (SimpleCache.cache c)))
                (SimpleCache.maxSize c)) as [_|]; [|lia].
    rewrite Hc. simpl. now rewrite String.eqb_refl. }
  rewrite Hc in Hnd, Hin. simpl in Hnd. apply List.NoDup_cons_iff in Hnd as [Hnin Hnd].
  unfold SimpleCache.size, JsMap.size. rewrite Hc', Hc. simpl in *.
  split; [apply get_set_eq|]. split; [|split].
  - intros ->. apply get_None_notin in Hnin.
    rewrite set_absent by exact Hnin. split; [reflexivity|].
    rewrite length_app. simpl. lia.
  - intros Hne. destruct (String.eqb_spec k k0) as [->|_]; [contradiction|].
    split; [reflexivity|]. split.
    + rewrite get_set_ne by exact Hne. now apply get_None_notin.
    + now rewrite length_set_present.
  - intros k' Hk Hk0. rewrite get_set_ne by exact Hk.
    destruct (String.eqb_spec k' k0); [contradiction | reflexivity].
Qed.

Lemma C2_overwrite_at_capacity_witness :
  let c := SimpleCache.set 0 "b" 2%Z
             (SimpleCache.set 0 "a" 1%Z (SimpleCache.new 2 1000)) in
  SimpleCache.cache (SimpleCache.set 1 "b" 5%Z c) = [("b", SimpleCache.Item 5%Z 1%Z)]
  /\ S (SimpleCache.size (SimpleCache.set 1 "b" 5%Z c)) = SimpleCache.size c.
Proof.
  intros c.
  assert (Hnd : List.NoDup (JsMap.keys (SimpleCache.cache c))).
  { simpl. repeat constructor; simpl; intuition discriminate. }
  destruct (C2_overwrite_at_capacity Z c 1%Z "b" 5%Z "a" (SimpleCache.Item 1%Z 0%Z)
              [("b", SimpleCache.Item 2%Z 0%Z)] Hnd eq_refl) as [_ [_ [H _]]].
  - subst c. vm_compute. discriminate.
  - subst c. vm_compute. discriminate.
  - destruct H as [H1 [_ H3]]; [discriminate|]. split; [exact H1 | exact H3].
Defined.

Section ExpiryFacts.
Context {V : Type}.
Import CacheHistory.
Implicit Types (c : SimpleCache.t V) (k : string) (o : op V).


Lemma stamped_apply k T ttl c o :
  overwrites k o = false -> stamped k T ttl c -> stamped k T ttl (apply c o).
Proof.
  intros Ho [Hnd [Ht Hs]]. destruct o as [now k'|now k' v']; simpl in *.
  - unfold SimpleCache.get.
    destruct (JsMap.get k' (SimpleCache.cache c)) as [it'|] eqn:Hg; simpl;
      [|split; [|split]; assumption].
    destruct (now - SimpleCache.timestamp it' >? SimpleCache.ttl c)%Z; simpl.
    + split; [|split]; simpl; [now apply NoDup_keys_delete | exact Ht |].
      intros it Hit. apply Hs. eapply get_delete_Some; eassumption.
    + split; [|split]; simpl;
        [now apply NoDup_keys_set, NoDup_keys_delete | exact Ht |].
      intros it. destruct (String.eqb_spec k k') as [->|Hne].
      * rewrite get_set_eq. intros [= <-]. now apply Hs.
      * rewrite get_set_ne by exact Hne. intros Hit. apply Hs.
        eapply get_delete_Some; eassumption.
  - destruct (String.eqb_spec k' k) as [|Hne]; [discriminate|].
    unfold SimpleCache.set; simpl.
    set (m := if (_ >=? _)%Z then _ else _).
    assert (Hm : List.NoDup (JsMap.keys m)
                 /\ forall it, JsMap.get k m = Some it ->
                               JsMap.get k (SimpleCache.cache c) = Some it).
    { subst m. destruct (_ >=? _)%Z; [|auto].
      destruct (JsMap.first_key _); [|auto].
      split; [now apply NoDup_keys_delete|].
      intros it. now apply get_delete_Some. }
    destruct Hm as [Hm1 Hm2].
    split; [|split]; simpl; [now apply NoDup_keys_set | exact Ht |].
    intros it. rewrite get_set_ne by auto. intros Hit. apply Hs. now apply Hm2.
Qed.

Lemma stamped_run k T ttl ops c :
  forallb (fun o => negb (overwrites k o)) ops = true ->
  stamped k T ttl c -> stamped k T ttl (run c ops).
Proof.
  revert c. induction ops as [|o r IH]; intros c Hops Hs; simpl in *; [exact Hs|].
  apply andb_prop in Hops as [Ho Hr]. apply IH; [exact Hr|].
  apply stamped_apply; [|exact Hs]. now destruct (overwrites k o).
Qed.

Lemma stamped_set k T v c :
  List.NoDup (JsMap.keys (SimpleCache.cache c)) ->
  stamped k T (SimpleCache.ttl c) (SimpleCache.set T k v c).
Proof.
  intros Hnd. unfold SimpleCache.set; simpl.
  set (m := if (_ >=? _)%Z then _ else _).
  assert (Hm : List.NoDup (JsMap.keys m)).
  { subst m. destruct (_ >=? _)%Z; [|auto].
    destruct (JsMap.first_key _); [|auto]. now apply NoDup_keys_delete. }
  split; [|split]; simpl; [now apply NoDup_keys_set | reflexivity |].
  intros it. rewrite get_set_eq. now intros [= <-].
Qed.

Lemma get_expired k T ttl c now :
  stamped k T ttl c -> (now > T + ttl)%Z ->
  fst (SimpleCache.get now k c) = None
  /\ JsMap.get k (SimpleCache.cache (snd (SimpleCache.get now k c))) = None.
Proof.
  intros [Hnd [Ht Hs]] Hlate. unfold SimpleCache.get.
  destruct (JsMap.get k (SimpleCache.cache c)) as [it|] eqn:Hg; simpl; [|auto].
  rewrite (Hs it eq_refl), Ht.
  destruct (Z.gtb_spec (now - T) ttl) as [_|]; [|lia]. simpl.
  split; [reflexivity|]. now apply get_delete_eq.
Qed.

Lemma get_returns_fresh c now k v :
  fst (SimpleCache.get now k c) = Some v ->
  exists it, JsMap.get k (SimpleCache.cache c) = Some it
             /\ SimpleCache.value it = v
             /\ (now - SimpleCache.timestamp it <= SimpleCache.ttl c)%Z.
Proof.
  unfold SimpleCache.get.
  destruct (JsMap.get k (SimpleCache.cache c)) as [it|]; simpl; [|discriminate].
  destruct (Z.gtb_spec (now - SimpleCache.timestamp it) (SimpleCache.ttl c));
    simpl; [discriminate|].
  intros [= <-]. exists it. repeat split. lia.
Qed.
End ExpiryFacts.

(** C8, as stated, fails at the boundary: an entry inserted at time 0
    with a TTL of 1000 ms is still returned at time 1000, when its age
    equals the TTL and is not below it. *)
Lemma C8_counterexample :
  let c := SimpleCache.set 0 "a" 7%Z (SimpleCache.new 2 1000) in
  fst (SimpleCache.get 1000 "a" c) = Some 7%Z
  /\ JsMap.get "a" (SimpleCache.cache c) = Some (SimpleCache.Item 7%Z 0%Z)
  /\ ~ (1000 - 0 < SimpleCache.ttl c)%Z.
Proof. vm_compute. repeat split. intros H. discriminate H. Qed.

(** C8, amended. An entry inserted under [k] at time [T] is absent from
    every [get] performed later than [T + TTL], which removes it if it is
    still cached, whatever gets (of any key, at any time) and inserts of
    other keys happen in between: a get does not refresh the insertion
    time. Every value returned by [get] has an age of at most the TTL
    ([now - insertedAt <= TTL]); an entry whose age equals the TTL is
    still returned. *)
Theorem C8_ttl_expiry :
  (forall (V : Type) (c0 : SimpleCache.t V) (T : Z) (k : string) (v : V)
          (ops : list (CacheHistory.op V)) (now : Z),
      List.NoDup (JsMap.keys (SimpleCache.cache c0)) ->
      forallb (fun o => negb (overwrites k o)) ops = true ->
      (now > T + SimpleCache.ttl c0)%Z ->
      let c := CacheHistory.run (SimpleCache.set T k v c0) ops in
      fst (SimpleCache.get now k c) = None
      /\ JsMap.get k (SimpleCache.cache (snd (SimpleCache.get now k c))) = None)
  /\ (forall (V : Type) (c : SimpleCache.t V) (now : Z) (k : string) (v : V),
      fst (SimpleCache.get now k c) = Some v ->
      exists it, JsMap.get k (SimpleCache.cache c) = Some it
                 /\ SimpleCache.value it = v
                 /\ (now - SimpleCache.timestamp it <= SimpleCache.ttl c)%Z).
Proof.
  split.
  - intros V c0 T k v ops now Hnd Hops Hlate c.
    apply (get_expired k T (SimpleCache.ttl c0)); [|exact Hlate].
    apply stamped_run; [exact Hops|]. now apply stamped_set.
  - intros. now apply get_returns_fresh.
Qed.

Lemma C8_ttl_expiry_witness :
  let c := CacheHistory.run
             (SimpleCache.set 0 "a" 7%Z (SimpleCache.new 2 1000))
             [CacheHistory.OpGet 900 "a"; CacheHistory.OpSet 950 "b" 8%Z;
              CacheHistory.OpGet 1000 "a"] in
  fst (SimpleCache.get 1001 "a" c) = None
  /\ (exists it, JsMap.get "a" (SimpleCache.cache c) = Some it
                 /\ SimpleCache.value it = 7%Z
                 /\ (1000 - SimpleCache.timestamp it <= SimpleCache.ttl c)%Z).
Proof.
  intros c. destruct C8_ttl_expiry as [Hexp Hfresh]. split.
  - apply (Hexp Z (SimpleCache.new 2 1000) 0%Z "a" 7%Z
             [CacheHistory.OpGet 900 "a"; CacheHistory.OpSet 950 "b" 8%Z;
              CacheHistory.OpGet 1000 "a"] 1001%Z).
    + simpl. constructor.
    + reflexivity.
    + simpl. lia.
  - apply (Hfresh Z c 1000%Z "a" 7%Z). reflexivity.
Defined.

(** * Facts about the batch executor *)

Section BatchFacts.
Variable env : Env.

Lemma iter_complete total n c :
  Nat.iter n (Batch.complete_one total) (Batch.MkState c false None)
  = Batch.MkState (c + n) false
      (if (c <? total)%nat && (total <=? c + n)%nat then Some None else None).
Proof.
  induction n as [|n IH]; cbn [Nat.iter nat_rect].
  - rewrite Nat.add_0_r.
    destruct (Nat.ltb_spec c total), (Nat.leb_spec total c);
      cbn [andb]; try reflexivity; lia.
  - unfold Nat.iter in IH. rewrite IH. unfold Batch.complete_one.
    cbn [Batch.completed Batch.hasError Batch.settled negb].
    replace (c + S n) with (S (c + n)) by lia.
    destruct (Nat.eqb_spec (S (c + n)) total) as [E|E];
      destruct (Nat.ltb_spec c total), (Nat.leb_spec total (c + n)),
        (Nat.leb_spec total (S (c + n)));
      cbn [andb]; unfold Batch.resolve;
      cbn [Batch.completed Batch.hasError Batch.settled];
      try reflexivity; lia.
Qed.

Lemma visit_spec mk total entries st :
  Batch.visit mk total entries st
  = (Nat.iter (length entries - length (written entries))
       (Batch.complete_one total) st,
     map mk (written entries)).
Proof.
  revert st. induction entries as [|e r IH]; intros st; simpl; [reflexivity|].
  assert (Hle : length (written r) <= length r) by apply List.filter_length_le.
  destruct (Entry.word_falsy e); simpl.
  - rewrite IH. f_equal.
    replace (S (length r) - length (written r))
      with (S (length r - length (written r))) by (unfold written in *; lia).
    now rewrite Nat.iter_succ_r.
  - rewrite IH. reflexivity.
Qed.

Lemma deliver_ok total reqs seq m st :
  first_fault env seq (length reqs) = None ->
  Batch.deliver env total reqs seq (Some m) st
  = (Nat.iter (length reqs) (Batch.complete_one total) st,
     Some (put_all reqs m), seq + length reqs).
Proof.
  revert seq m st. induction reqs as [|r rest IH]; intros seq m st Hff; simpl in *.
  - now rewrite Nat.add_0_r.
  - destruct (idbFault env seq); [discriminate|].
    rewrite IH by exact Hff. rewrite <- Nat.iter_succ_r. simpl.
    repeat f_equal. lia.
Qed.

Lemma deliver_aborted total reqs seq st :
  Batch.hasError st = true ->
  Batch.deliver env total reqs seq None st = (st, None, seq).
Proof.
  intros He. induction reqs as [|r rest IH]; simpl; [reflexivity|].
  unfold Batch.onerror. now rewrite He.
Qed.

Lemma complete_one_pending total c :
  S c <> total ->
  Batch.complete_one total (Batch.MkState c false None)
  = Batch.MkState (S c) false None.
Proof.
  intros Hne. unfold Batch.complete_one.
  cbn [Batch.completed Batch.hasError Batch.settled].
  now destruct (Nat.eqb_spec (S c) total).
Qed.

Lemma deliver_fault total reqs seq m c e :
  first_fault env seq (length reqs) = Some e ->
  c + length reqs <= total ->
  exists seq' c',
    Batch.deliver env total reqs seq (Some m) (Batch.MkState c false None)
    = (Batch.MkState c' true (Some (Some e)), None, seq').
Proof.
  revert seq m c. induction reqs as [|r rest IH]; intros seq m c Hff Hle.
  - discriminate.
  - cbn [Batch.deliver]. cbn [first_fault length] in Hff.
    destruct (idbFault env seq) as [e'|] eqn:Hf.
    + injection Hff as ->. exists (S seq), c.
      now rewrite deliver_aborted by reflexivity.
    + assert (Hrest : length rest <> 0) by (destruct rest; [discriminate | simpl; lia]).
      cbn [length] in Hle.
      rewrite complete_one_pending by lia.
      apply IH; [exact Hff | lia].
Qed.

Lemma written_length entries : length (written entries) <= length entries.
Proof. apply List.filter_length_le. Qed.

(** No request fails: the promise is fulfilled once every entry is
    written or skipped. *)
Lemma run_fulfilled mk entries w :
  entries <> [] ->
  first_fault env (idbSeq w) (length (written entries)) = None ->
  Batch.run env mk entries w
  = (Returned tt,
     set_idb (put_all (map (mk (clock w)) (written entries)) (idb w))
       (set_idbSeq (idbSeq w + length (written entries))
          (set_trace (trace w ++ map (fun r => EvIdbPut (StoreRecord.word r))
                                     (map (mk (clock w)) (written entries))) w))).
Proof.
  intros Hne Hff. unfold Batch.run. rewrite visit_spec.
  rewrite deliver_ok by (now rewrite length_map).
  rewrite length_map, <- Nat.iter_add.
  pose proof (written_length entries) as Hle.
  replace (length (written entries) + (length entries - length (written entries)))
    with (length entries) by lia.
  unfold Batch.start. rewrite iter_complete. simpl.
  destruct entries as [|e r]; [contradiction|]. simpl length.
  destruct (Nat.leb_spec (S (length r)) (S (length r))); [|lia]. reflexivity.
Qed.

(** A request fails: the promise is rejected with the first fault and
    nothing is written. *)
Lemma run_rejected mk entries w e :
  first_fault env (idbSeq w) (length (written entries)) = Some e ->
  exists w', Batch.run env mk entries w = (Thrown e, w') /\ idb w' = idb w
             /\ hotCache w' = hotCache w /\ mgr_db w' = mgr_db w.
Proof.
  intros Hff. unfold Batch.run. rewrite visit_spec.
  pose proof (written_length entries) as Hle.
  assert (Hpos : length (written entries) <> 0).
  { destruct (written entries); [discriminate | simpl; lia]. }
  unfold Batch.start. rewrite iter_complete. simpl.
  destruct (Nat.leb_spec (length entries) (length entries - length (written entries)));
    [lia|].
  replace ((0 <? length entries)%nat && false) with false by (now destruct (_ <? _)%nat).
  edestruct (deliver_fault (length entries)
               (map (mk (clock w)) (written entries)) (idbSeq w) (idb w)
               (length entries - length (written entries)) e) as [seq' [c' Hd]].
  - now rewrite length_map.
  - rewrite length_map. lia.
  - rewrite Hd. simpl. eexists. split; [reflexivity|]. simpl. auto.
Qed.

(** The empty batch: neither [resolve] nor [reject] is ever called. *)
Lemma run_empty mk w : Batch.run env mk [] w = (Pending, w).
Proof.
  unfold Batch.run. simpl. rewrite app_nil_r. now destruct w.
Qed.

Lemma first_fault_cases seq n :
  first_fault env seq n = None \/ exists e, first_fault env seq n = Some e.
Proof. destruct (first_fault env seq n) as [e|]; [right; now exists e | now left]. Qed.
End BatchFacts.

(** * Facts about [DictionaryDB] *)


Section DbFacts.
Variable env : Env.

Lemma first_fault_none seq n : no_faults env -> first_fault env seq n = None.
Proof.
  intros Hnf. revert seq. induction n as [|n IH]; intros seq; simpl; [reflexivity|].
  now rewrite Hnf.
Qed.

Lemma init_initialised w :
  mgr_db w = Some (MkDB true (Some None)) -> store_ready env w.
Proof. intros H. unfold store_ready, DictionaryDB.init. now rewrite H. Qed.

Lemma init_ok w d :
  no_faults env -> mgr_db w = Some d -> usable d ->
  exists w', DictionaryDB.init env w = (Returned tt, w')
             /\ idb w' = idb w /\ clock w' = clock w /\ hotCache w' = hotCache w
             /\ netSeq w' = netSeq w
             /\ (exists d', mgr_db w' = Some d')
             /\ store_ready env w'.
Proof.
  intros Hnf Hd Hu. unfold store_ready, DictionaryDB.init. rewrite Hd.
  unfold usable in Hu.
  destruct d as [dbh [[e|]|]]; simpl in *.
  - contradiction.
  - exists w. rewrite Hd. simpl. repeat split; eauto.
  - destruct dbh.
    + exists w. rewrite Hd. simpl. repeat split; eauto.
    + unfold bind, emit, DictionaryDB.request; simpl. rewrite Hnf.
      eexists. split; [reflexivity|]. simpl. repeat split; eauto.
Qed.

(** Readiness depends on the manager's [db] field only. *)
Lemma store_ready_same w w' :
  store_ready env w -> mgr_db w' = mgr_db w -> store_ready env w'.
Proof.
  unfold store_ready, DictionaryDB.init. intros Hr Hm. rewrite Hm.
  destruct (mgr_db w) as [d|] eqn:Hd; [|discriminate].
  destruct (initPromise d) as [[e|]|] eqn:Hp; try discriminate; [reflexivity|].
  destruct (db d); [reflexivity|].
  unfold bind, emit, DictionaryDB.request in Hr; simpl in Hr.
  destruct (idbFault env (idbSeq w)); [discriminate|].
  injection Hr as Hr. apply (f_equal mgr_db) in Hr. simpl in Hr.
  rewrite Hd in Hr. injection Hr as <-. discriminate.
Qed.

Lemma set_ok w w0 entry word :
  DictionaryDB.init env w = (Returned tt, w0) ->
  store_ready env w0 ->
  Entry.word entry = Some word -> word <> EmptyString ->
  idbFault env (idbSeq w0) = None ->
  exists w',
    DictionaryDB.set env entry w = (Returned tt, w')
    /\ idb w' = <[JsString.normalize word :=
                   StoreRecord.Make (JsString.normalize word) (Entry.data entry) (clock w0)]>
                (idb w0)
    /\ idbSeq w' = S (idbSeq w0)
    /\ mgr_db w' = mgr_db w0
    /\ hotCache w' = hotCache w0
    /\ clock w' = clock w0
    /\ netSeq w' = netSeq w0
    /\ store_ready env w'.
Proof.
  intros Hi Hr Hw Hne Hf. unfold DictionaryDB.set, bind. rewrite Hi.
  unfold Entry.word_falsy. rewrite Hw.
  destruct word as [|a s]; [contradiction|]. simpl.
  unfold DictionaryDB.request; simpl. rewrite Hf.
  unfold DictionaryDB.entryToStore. rewrite Hw. simpl.
  eexists. split; [reflexivity|]. simpl. repeat split.
  now apply (store_ready_same w0).
Qed.

Lemma get_ok w word :
  store_ready env w ->
  idbFault env (idbSeq w) = None ->
  exists w',
    DictionaryDB.get env word w = (Returned (idb w !! JsString.normalize word), w')
    /\ idb w' = idb w /\ mgr_db w' = mgr_db w /\ hotCache w' = hotCache w
    /\ clock w' = clock w /\ netSeq w' = netSeq w.
Proof.
  intros Hr Hf. unfold DictionaryDB.get, bind. rewrite Hr. simpl.
  unfold DictionaryDB.request; simpl. rewrite Hf.
  eexists. split; [reflexivity|]. simpl. repeat split.
Qed.
End DbFacts.

Section StoreInvariant.
Variable env : Env.

Lemma store_normalized_empty : store_normalized ∅.
Proof. intros k r H. now rewrite lookup_empty in H. Qed.

Lemma store_normalized_insert (m : gmap string StoreRecord.t) r :
  store_normalized m ->
  JsString.normalize (StoreRecord.word r) = StoreRecord.word r ->
  store_normalized (<[StoreRecord.word r := r]> m).
Proof.
  intros Hm Hr k r' Hk. destruct (decide (StoreRecord.word r = k)) as [<-|Hne].
  - rewrite lookup_insert_eq in Hk. injection Hk as <-. now split.
  - rewrite lookup_insert_ne in Hk by exact Hne. now apply Hm.
Qed.

Lemma store_normalized_delete (m : gmap string StoreRecord.t) k :
  store_normalized m -> store_normalized (base.delete k m).
Proof.
  intros Hm k' r Hk. destruct (decide (k = k')) as [<-|Hne].
  - now rewrite lookup_delete_eq in Hk.
  - rewrite lookup_delete_ne in Hk by exact Hne. now apply Hm.
Qed.

Lemma deliver_normalized total reqs seq tx st :
  List.Forall (fun r => JsString.normalize (StoreRecord.word r) = StoreRecord.word r) reqs ->
  match tx with Some m => store_normalized m | None => True end ->
  match snd (fst (Batch.deliver env total reqs seq tx st)) with
  | Some m => store_normalized m
  | None => True
  end.
Proof.
  revert seq tx st. induction reqs as [|r rest IH]; intros seq tx st Hall Htx; simpl.
  - exact Htx.
  - apply List.Forall_cons_iff in Hall as [Hr Hall].
    destruct tx as [m|]; [|now apply IH].
    destruct (idbFault env seq); apply IH; auto.
    now apply store_normalized_insert.
Qed.

Lemma run_normalized (mk : Z -> Entry.t -> StoreRecord.t) entries w :
  (forall t e, JsString.normalize (StoreRecord.word (mk t e)) = StoreRecord.word (mk t e)) ->
  store_normalized (idb w) ->
  store_normalized (idb (snd (Batch.run env mk entries w))).
Proof.
  intros Hmk Hw. unfold Batch.run. rewrite visit_spec.
  pose proof (deliver_normalized (length entries)
                (map (mk (clock w)) (written entries)) (idbSeq w) (Some (idb w))
                (Nat.iter (length entries - length (written entries))
                   (Batch.complete_one (length entries)) Batch.start)) as Hd.
  destruct (Batch.deliver _ _ _ _ _ _) as [[st tx] seq]. simpl in Hd.
  assert (Htx : match tx with Some m => store_normalized m | None => True end).
  { apply Hd; [|exact Hw]. apply List.Forall_forall. intros r Hr.
    apply in_map_iff in Hr as [e [<- _]]. apply Hmk. }
  destruct (Batch.settled st) as [[e|]|]; simpl; destruct tx; auto.
Qed.

Lemma init_idb w : idb (snd (DictionaryDB.init env w)) = idb w.
Proof.
  unfold DictionaryDB.init. destruct (mgr_db w) as [d|]; [|reflexivity].
  destruct (initPromise d) as [[e|]|]; try reflexivity.
  destruct (db d); [reflexivity|].
  unfold bind, emit, DictionaryDB.request; simpl.
  destruct (idbFault env (idbSeq w)); reflexivity.
Qed.

Lemma entryToStore_normalized t e :
  JsString.normalize (StoreRecord.word (DictionaryDB.entryToStore t e))
  = StoreRecord.word (DictionaryDB.entryToStore t e).
Proof. apply normalize_idem. Qed.

Lemma recordOf_normalized t e :
  JsString.normalize (StoreRecord.word (Background.recordOf t e))
  = StoreRecord.word (Background.recordOf t e).
Proof. apply normalize_idem. Qed.

Lemma after_init_normalized {A} (k : Async A) w :
  store_normalized (idb w) ->
  (forall w1, idb w1 = idb w -> store_normalized (idb (snd (k w1)))) ->
  store_normalized (idb (snd ((DictionaryDB.init env ;; k) w))).
Proof.
  intros Hw Hk. unfold bind. pose proof (init_idb w) as Hi.
  destruct (DictionaryDB.init env w) as [[[]|e|] w1]; simpl in *.
  - now apply Hk.
  - now rewrite Hi.
  - now rewrite Hi.
Qed.

Lemma store_step_normalized o w :
  store_normalized (idb w) ->
  store_normalized (idb (snd (store_step env o w))).
Proof.
  intros Hw. destruct o as [entry|entries|word| |entries]; simpl.
  - unfold DictionaryDB.set. apply after_init_normalized; [exact Hw|].
    intros w1 Hi. destruct (Entry.word_falsy entry); simpl; [now rewrite Hi|].
    unfold bind, DictionaryDB.request; simpl.
    destruct (idbFault env (idbSeq w1)); simpl; [now rewrite Hi|].
    rewrite Hi. apply store_normalized_insert; [exact Hw|].
    apply entryToStore_normalized.
  - unfold DictionaryDB.setBatch.
    change ((emit (EvSetBatch (length entries)) ;;
             DictionaryDB.init env ;; Batch.run env DictionaryDB.entryToStore entries) w)
      with ((DictionaryDB.init env ;; Batch.run env DictionaryDB.entryToStore entries)
              (set_trace (trace w ++ [EvSetBatch (length entries)]) w)).
    apply after_init_normalized; [exact Hw|].
    intros w1 Hi. apply run_normalized; [apply entryToStore_normalized|].
    rewrite Hi. exact Hw.
  - unfold DictionaryDB.delete. apply after_init_normalized; [exact Hw|].
    intros w1 Hi. unfold bind, DictionaryDB.request; simpl.
    destruct (idbFault env (idbSeq w1)); simpl; [now rewrite Hi|].
    rewrite Hi. now apply store_normalized_delete.
  - unfold DictionaryDB.clear. apply after_init_normalized; [exact Hw|].
    intros w1 Hi. unfold bind, DictionaryDB.request; simpl.
    destruct (idbFault env (idbSeq w1)); simpl; [now rewrite Hi|].
    apply store_normalized_empty.
  - unfold Background.storeBatch.
    apply run_normalized; [apply recordOf_normalized | exact Hw].
Qed.
End StoreInvariant.

Lemma reach_normalized w : StoreReach w -> store_normalized (idb w).
Proof.
  induction 1 as [w H|env o w _ IH|w w' _ IH H].
  - rewrite H. apply store_normalized_empty.
  - now apply store_step_normalized.
  - now rewrite H.
Qed.

(** C10. The promise built by [storeBatch] and by [setBatch] (once the
    store is initialised) for the empty list is never settled, so the
    call never completes. For a list that is not empty the call ends: it
    returns when no request fails, every entry with a word being written
    and every other entry skipped, and it throws the first fault
    otherwise, nothing being written. *)
Theorem C10_batch_settlement :
  (forall env w, Background.storeBatch env [] w = (Pending, w))
  /\ (forall env w,
      store_ready env w ->
      fst (DictionaryDB.setBatch env [] w) = Pending)
  /\ (forall env entries w,
      entries <> [] ->
      let r := Background.storeBatch env entries w in
      match first_fault env (idbSeq w) (length (written entries)) with
      | None =>
          fst r = Returned tt
          /\ idb (snd r)
             = put_all (map (Background.recordOf (clock w)) (written entries)) (idb w)
      | Some e => fst r = Thrown e /\ idb (snd r) = idb w
      end)
  /\ (forall env entries w,
      store_ready env w ->
      entries <> [] ->
      let r := DictionaryDB.setBatch env entries w in
      match first_fault env (idbSeq w) (length (written entries)) with
      | None =>
          fst r = Returned tt
          /\ idb (snd r)
             = put_all (map (DictionaryDB.entryToStore (clock w)) (written entries)) (idb w)
      | Some e => fst r = Thrown e /\ idb (snd r) = idb w
      end).
Proof.
  split; [|split; [|split]].
  - intros env w. apply run_empty.
  - intros env w Hr. unfold DictionaryDB.setBatch, bind, emit; simpl.
    assert (Hr' : DictionaryDB.init env (set_trace (trace w ++ [EvSetBatch 0]) w)
                  = (Returned tt, set_trace (trace w ++ [EvSetBatch 0]) w)).
    { now apply (store_ready_same env w). }
    rewrite Hr'. now rewrite run_empty.
  - intros env entries w Hne r. subst r. unfold Background.storeBatch.
    destruct (first_fault env (idbSeq w) (length (written entries))) as [e|] eqn:Hff.
    + destruct (run_rejected env Background.recordOf entries w e Hff) as [w' [-> [Hi _]]].
      now split.
    + rewrite run_fulfilled by assumption. now split.
  - intros env entries w Hr Hne r. subst r.
    unfold DictionaryDB.setBatch, bind, emit; simpl.
    set (w0 := set_trace (trace w ++ [EvSetBatch (length entries)]) w).
    assert (Hr' : DictionaryDB.init env w0 = (Returned tt, w0)).
    { now apply (store_ready_same env w). }
    rewrite Hr'.
    change (idbSeq w) with (idbSeq w0). change (idb w) with (idb w0).
    change (clock w) with (clock w0).
    destruct (first_fault env (idbSeq w0) (length (written entries))) as [e|] eqn:Hff.
    + destruct (run_rejected env DictionaryDB.entryToStore entries w0 e Hff)
        as [w' [-> [Hi _]]].
      now split.
    + rewrite run_fulfilled by assumption. now split.
Qed.

Lemma C10_batch_settlement_witness :
  let env := MkEnv true (fun _ => None) (fun _ => Hangs) in
  let w := MkWorld 0 (SimpleCache.new 2 1000) (Some (MkDB true (Some None))) ∅ 0 0 [] in
  let entries := [Entry.Make (Some " Cat ") None; Entry.Make None None] in
  fst (DictionaryDB.setBatch env [] w) = Pending
  /\ fst (DictionaryDB.setBatch env entries w) = Returned tt
  /\ fst (Background.storeBatch env entries w) = Returned tt.
Proof.
  intros env w entries.
  destruct C10_batch_settlement as [_ [Hempty [Hbg Hdb]]].
  split; [apply Hempty; reflexivity|]. split.
  - assert (Hne : entries <> []) by discriminate.
    pose proof (Hdb env entries w eq_refl Hne) as H. simpl in H. exact (proj1 H).
  - assert (Hne : entries <> []) by discriminate.
    pose proof (Hbg env entries w Hne) as H. simpl in H. exact (proj1 H).
Defined.

(** C6. With a store that can be initialised and no storage fault,
    [set(entry)] for an entry whose word is not empty, followed by
    [get] of that word or of any spelling with the same normal form,
    returns a record with the entry's data and the trimmed, lower-cased
    word as its key. "Hello " and "hello" have the same normal form. In
    every world reached by the operations that write to the store, two
    records whose words have the same normal form are the same record. *)
Theorem C6_store_roundtrip :
  (forall env w d entry word word',
      no_faults env -> mgr_db w = Some d -> usable d ->
      Entry.word entry = Some word -> word <> EmptyString ->
      JsString.normalize word' = JsString.normalize word ->
      exists w1 w2 r,
        DictionaryDB.set env entry w = (Returned tt, w1)
        /\ DictionaryDB.get env word' w1 = (Returned (Some r), w2)
        /\ StoreRecord.data r = Entry.data entry
        /\ StoreRecord.word r = JsString.normalize word)
  /\ JsString.normalize "Hello " = JsString.normalize "hello"
  /\ (forall w, StoreReach w ->
      forall k1 k2 r1 r2,
        idb w !! k1 = Some r1 -> idb w !! k2 = Some r2 ->
        JsString.normalize (StoreRecord.word r1)
        = JsString.normalize (StoreRecord.word r2) ->
        k1 = k2 /\ r1 = r2).
Proof.
  split; [|split].
  - intros env w d entry word word' Hnf Hd Hu Hw Hne Hn.
    destruct (init_ok env w d Hnf Hd Hu) as [w0 [Hi [_ [_ [_ [_ [_ Hr0]]]]]]].
    destruct (set_ok env w w0 entry word Hi Hr0 Hw Hne (Hnf _))
      as [w1 [Hs [Hidb [_ [_ [_ [_ [_ Hr1]]]]]]]].
    destruct (get_ok env w1 word' Hr1 (Hnf _)) as [w2 [Hg _]].
    rewrite Hn, Hidb, lookup_insert_eq in Hg.
    exists w1, w2. eexists. split; [exact Hs|]. split; [exact Hg|]. now split.
  - reflexivity.
  - intros w Hreach k1 k2 r1 r2 H1 H2 Hn.
    pose proof (reach_normalized w Hreach) as Hnorm.
    destruct (Hnorm k1 r1 H1) as [E1 N1]. destruct (Hnorm k2 r2 H2) as [E2 N2].
    assert (Hk : k1 = k2) by congruence. split; [exact Hk | congruence].
Qed.

Lemma C6_store_roundtrip_witness :
  let env := MkEnv true (fun _ => None) (fun _ => Hangs) in
  let w := MkWorld 5 (SimpleCache.new 2 1000) (Some DictionaryDB.new) ∅ 0 0 [] in
  let entry := Entry.Make (Some "hello") (Some (JStr "a greeting")) in
  exists w1 w2 r,
    DictionaryDB.set env entry w = (Returned tt, w1)
    /\ DictionaryDB.get env "Hello " w1 = (Returned (Some r), w2)
    /\ StoreRecord.data r = Some (JStr "a greeting")
    /\ StoreRecord.word r = "hello".
Proof.
  intros env w entry.
  destruct C6_store_roundtrip as [Hrt _].
  apply (Hrt env w DictionaryDB.new entry "hello" "Hello ").
  - intros n. reflexivity.
  - reflexivity.
  - simpl. exact I.
  - reflexivity.
  - discriminate.
  - reflexivity.
Defined.

(** * Facts about [fetchWithTimeout] and [fetchFromAPI] *)

Section FetchFacts.
Variable env : Env.
Variable url : string.
Variable timeout : Z.

Lemma same_stores_refl w : same_stores w w.
Proof. repeat split. Qed.

Lemma same_stores_trans w1 w2 w3 :
  same_stores w1 w2 -> same_stores w2 w3 -> same_stores w1 w3.
Proof. unfold same_stores. intuition congruence. Qed.

(** An attempt that is not answered in time: the timer fires, the
    request is cancelled, [fetch] rejects with an AbortError. *)
Lemma fetch_times_out w :
  times_out timeout (network env (netSeq w)) = true ->
  fetch env url timeout w
  = (Thrown AbortError,
     MkWorld (clock w + Z.max 0 timeout) (hotCache w) (mgr_db w) (idb w)
       (idbSeq w) (S (netSeq w)) ((trace w ++ [EvFetch url]) ++ [EvAbort])).
Proof.
  unfold fetch, times_out. destruct (network env (netSeq w)) as [d r|d msg|];
    simpl; intros H.
  - destruct (Z.of_nat d <? timeout)%Z; [discriminate | reflexivity].
  - destruct (Z.of_nat d <? timeout)%Z; [discriminate | reflexivity].
  - reflexivity.
Qed.

Lemma fetch_fails_fast w :
  fails_fast timeout (network env (netSeq w)) = true ->
  exists d msg,
    (Z.of_nat d < timeout)%Z
    /\ fetch env url timeout w
       = (Thrown (TypeError msg),
          MkWorld (clock w + Z.of_nat d) (hotCache w) (mgr_db w) (idb w)
            (idbSeq w) (S (netSeq w)) (trace w ++ [EvFetch url])).
Proof.
  unfold fetch, fails_fast. destruct (network env (netSeq w)) as [d r|d msg|];
    simpl; intros H; try discriminate.
  exists d, msg. rewrite H. split; [now apply Z.ltb_lt | reflexivity].
Qed.

Lemma fetch_responds w d r :
  network env (netSeq w) = Responds d r -> (Z.of_nat d < timeout)%Z ->
  fetch env url timeout w
  = (Returned r,
     MkWorld (clock w + Z.of_nat d) (hotCache w) (mgr_db w) (idb w)
       (idbSeq w) (S (netSeq w)) (trace w ++ [EvFetch url])).
Proof.
  intros Hn Hd. unfold fetch. rewrite Hn.
  apply Z.ltb_lt in Hd. now rewrite Hd.
Qed.

(** A timeout is not retried, whatever [retries] is. *)
Lemma fetchWithTimeout_times_out retries w :
  times_out timeout (network env (netSeq w)) = true ->
  fetchWithTimeout env url timeout retries w
  = (Thrown (Error "Request timeout"),
     MkWorld (clock w + Z.max 0 timeout) (hotCache w) (mgr_db w) (idb w)
       (idbSeq w) (S (netSeq w)) ((trace w ++ [EvFetch url]) ++ [EvAbort])).
Proof.
  intros H. destruct retries; simpl; unfold try_catch;
    rewrite (fetch_times_out w H); reflexivity.
Qed.

(** A response is handed back at once, whatever its status. *)
Lemma fetchWithTimeout_responds retries w d r :
  network env (netSeq w) = Responds d r -> (Z.of_nat d < timeout)%Z ->
  fetchWithTimeout env url timeout retries w
  = (Returned r,
     MkWorld (clock w + Z.of_nat d) (hotCache w) (mgr_db w) (idb w)
       (idbSeq w) (S (netSeq w)) (trace w ++ [EvFetch url])).
Proof.
  intros Hn Hd. destruct retries; simpl; unfold try_catch;
    rewrite (fetch_responds w d r Hn Hd); reflexivity.
Qed.

(** After [j] connection failures, [j] of the retries are used up. *)
Lemma fetchWithTimeout_after_failures j : forall retries w,
  j <= retries ->
  (forall i, i < j -> fails_fast timeout (network env (netSeq w + i)) = true) ->
  exists wj,
    fetchWithTimeout env url timeout retries w
    = fetchWithTimeout env url timeout (retries - j) wj
    /\ netSeq wj = netSeq w + j
    /\ same_stores w wj
    /\ fetch_calls (trace wj) = fetch_calls (trace w) ++ repeat url j
    /\ (clock w <= clock wj <= clock w + Z.of_nat j * (Z.max 0 timeout + 1000))%Z.
Proof.
  induction j as [|j IH]; intros retries w Hle Hfail.
  - exists w. rewrite Nat.sub_0_r, Nat.add_0_r, app_nil_r.
    repeat split; auto; lia.
  - destruct retries as [|retries]; [lia|].
    destruct (fetch_fails_fast w) as [d [msg [Hd Hf]]].
    { rewrite <- (Nat.add_0_r (netSeq w)). apply Hfail. lia. }
    set (w1 := MkWorld (clock w + Z.of_nat d + Z.max 0 1000) (hotCache w) (mgr_db w)
                 (idb w) (idbSeq w) (S (netSeq w))
                 ((trace w ++ [EvFetch url]) ++ [EvSleep 1000])).
    assert (Hstep : fetchWithTimeout env url timeout (S retries) w
                    = fetchWithTimeout env url timeout retries w1).
    { simpl. unfold try_catch at 1. rewrite Hf. reflexivity. }
    destruct (IH retries w1) as [wj [He [Hn [Hs [Hc Hk]]]]].
    + lia.
    + intros i Hi. simpl. replace (S (netSeq w + i)) with (netSeq w + S i) by lia.
      apply Hfail. lia.
    + exists wj. rewrite Hstep, He. simpl in *.
      split; [reflexivity|]. split; [lia|]. split.
      * destruct Hs as [H1 [H2 [H3 H4]]]. repeat split; assumption.
      * split.
        -- rewrite Hc. unfold fetch_calls. rewrite !flat_map_app. simpl.
           rewrite !app_nil_r, <- app_assoc. reflexivity.
        -- lia.
Qed.
End FetchFacts.

Section RemoteClaims.
Variable env : Env.
Variable config : Config.

Lemma fetchFromAPI_not_found word w j d r :
  j <= API_RETRY_ATTEMPTS config ->
  (forall i, i < j ->
     fails_fast (API_TIMEOUT config) (network env (netSeq w + i)) = true) ->
  network env (netSeq w + j) = Responds d r ->
  (Z.of_nat d < API_TIMEOUT config)%Z ->
  status r = 404%Z ->
  exists w',
    DictionaryManager.fetchFromAPI env config word w
    = (Returned (Lookup.Make None None (Some "not_found") None), w')
    /\ netSeq w' = netSeq w + j + 1
    /\ fetch_calls (trace w')
       = fetch_calls (trace w) ++ repeat (api_url config word) (j + 1)
    /\ (exists t, trace w' = t ++ [EvFetch (api_url config word)])
    /\ same_stores w w'.
Proof.
  intros Hj Hfail Hresp Hd Hs.
  destruct (fetchWithTimeout_after_failures env (api_url config word)
              (API_TIMEOUT config) j (API_RETRY_ATTEMPTS config) w Hj Hfail)
    as [wj [He [Hn [Hst [Hc _]]]]].
  rewrite <- Hn in Hresp.
  pose proof (fetchWithTimeout_responds env (api_url config word) (API_TIMEOUT config)
                (API_RETRY_ATTEMPTS config - j) wj d r Hresp Hd) as Hr.
  eexists. split.
  - unfold DictionaryManager.fetchFromAPI, try_catch, bind.
    fold (api_url config word). rewrite He, Hr.
    unfold ok. rewrite Hs. simpl. reflexivity.
  - simpl. split; [lia|]. split.
    + unfold fetch_calls in *. rewrite flat_map_app, Hc. simpl.
      rewrite <- app_assoc. f_equal.
      rewrite Nat.add_1_r. simpl. now rewrite repeat_cons.
    + split; [eexists; reflexivity|].
      destruct Hst as [H1 [H2 [H3 H4]]]. repeat split; assumption.
Qed.

Lemma fetchFromAPI_timeout word w j :
  j <= API_RETRY_ATTEMPTS config ->
  (forall i, i < j ->
     fails_fast (API_TIMEOUT config) (network env (netSeq w + i)) = true) ->
  times_out (API_TIMEOUT config) (network env (netSeq w + j)) = true ->
  exists w',
    DictionaryManager.fetchFromAPI env config word w
    = (Thrown (Error "Request timeout"), w')
    /\ netSeq w' = netSeq w + j + 1
    /\ fetch_calls (trace w')
       = fetch_calls (trace w) ++ repeat (api_url config word) (j + 1)
    /\ (exists t, trace w' = t ++ [EvFetch (api_url config word); EvAbort])
    /\ (clock w' <= clock w
                    + Z.of_nat (j + 1) * (Z.max 0 (API_TIMEOUT config) + 1000))%Z
    /\ same_stores w w'.
Proof.
  intros Hj Hfail Hto.
  destruct (fetchWithTimeout_after_failures env (api_url config word)
              (API_TIMEOUT config) j (API_RETRY_ATTEMPTS config) w Hj Hfail)
    as [wj [He [Hn [Hst [Hc Hk]]]]].
  rewrite <- Hn in Hto.
  pose proof (fetchWithTimeout_times_out env (api_url config word) (API_TIMEOUT config)
                (API_RETRY_ATTEMPTS config - j) wj Hto) as Hr.
  eexists. split.
  - unfold DictionaryManager.fetchFromAPI, try_catch, bind.
    fold (api_url config word). rewrite He, Hr. simpl. reflexivity.
  - simpl. split; [lia|]. split.
    + unfold fetch_calls in *. rewrite !flat_map_app, Hc. simpl.
      rewrite app_nil_r, <- app_assoc. f_equal.
      rewrite Nat.add_1_r. simpl. now rewrite repeat_cons.
    + split; [eexists; rewrite <- app_assoc; reflexivity|]. split; [lia|].
      destruct Hst as [H1 [H2 [H3 H4]]]. repeat split; assumption.
Qed.
End RemoteClaims.

(** C9. When the remote answers 404, after [j] connection failures that
    were retried or at the first attempt ([j = 0]), the fetcher returns
    the not-found result at once: the 404 is the last request sent, no
    retry and no delay follow it, and the lookup hands the result to the
    caller without touching cache or store. *)
Theorem C9_not_found_no_retry (env : Env) (config : Config) (word : string)
    (w : World) (j d : nat) (r : Response) :
  j <= API_RETRY_ATTEMPTS config ->
  (forall i, i < j ->
     fails_fast (API_TIMEOUT config) (network env (netSeq w + i)) = true) ->
  network env (netSeq w + j) = Responds d r ->
  (Z.of_nat d < API_TIMEOUT config)%Z ->
  status r = 404%Z ->
  exists w',
    DictionaryManager.fetchFromAPI env config word w
    = (Returned (Lookup.Make None None (Some "not_found") None), w')
    /\ DictionaryManager.lookupAPI env config word w
       = (Returned (Lookup.Make None None (Some "not_found") None), w')
    /\ netSeq w' = netSeq w + j + 1
    /\ fetch_calls (trace w')
       = fetch_calls (trace w) ++ repeat (api_url config word) (j + 1)
    /\ (exists t, trace w' = t ++ [EvFetch (api_url config word)])
    /\ same_stores w w'.
Proof.
  intros Hj Hfail Hresp Hd Hs.
  destruct (fetchFromAPI_not_found env config word w j d r Hj Hfail Hresp Hd Hs)
    as [w' [Hf [Hn [Hc [Ht Hst]]]]].
  exists w'. split; [exact Hf|]. split; [|auto].
  unfold DictionaryManager.lookupAPI, try_catch, bind. now rewrite Hf.
Qed.

Lemma C9_not_found_no_retry_witness :
  let env := MkEnv false (fun _ => None)
               (fun _ => Responds 120 (MkResponse 404 None)) in
  let w := DictionaryManager.new QUICKDEFINE_CONFIG
             (MkWorld 0 (SimpleCache.new 0 0) None ∅ 0 0 []) in
  exists w',
    DictionaryManager.lookupAPI env QUICKDEFINE_CONFIG "zzzz" w
    = (Returned (Lookup.Make None None (Some "not_found") None), w')
    /\ netSeq w' = 1.
Proof.
  intros env w.
  destruct (C9_not_found_no_retry env QUICKDEFINE_CONFIG "zzzz" w 0 120
              (MkResponse 404 None)) as [w' [_ [Hl [Hn _]]]].
  - simpl. lia.
  - intros i Hi. lia.
  - reflexivity.
  - simpl. lia.
  - reflexivity.
  - exists w'. split; [exact Hl | exact Hn].
Defined.

(** C1, as stated, fails: with the shipped configuration (two retries)
    and a network that never answers, one request is sent, not three,
    and the caller receives the error kind 'network'. *)
Lemma C1_counterexample :
  let env := MkEnv false (fun _ => None) (fun _ => Hangs) in
  let w := DictionaryManager.new QUICKDEFINE_CONFIG
             (MkWorld 0 (SimpleCache.new 0 0) None ∅ 0 0 []) in
  let r := DictionaryManager.getDefinition env QUICKDEFINE_CONFIG "hello" w in
  fst r = Returned (Lookup.Make None None (Some "network") (Some "Request timeout"))
  /\ length (fetch_calls (trace (snd r))) = 1
  /\ length (fetch_calls (trace (snd r))) <> 1 + API_RETRY_ATTEMPTS QUICKDEFINE_CONFIG
  /\ Some "network" <> Some "timeout".
Proof. vm_compute. repeat split; discriminate. Qed.

(** C1, amended. When an attempt is not answered before the deadline,
    after [j] connection failures that were retried or at the first
    attempt ([j = 0]), the request in flight is cancelled at the
    deadline and the fetch ends there: the timed-out request is the last
    one sent, it is not retried, and the caller receives a failed result
    with the message 'Request timeout'. The call always ends, within
    [(j + 1) * (timeout + 1000)] milliseconds. *)
Theorem C1_timeout_not_retried (env : Env) (config : Config) (word : string)
    (w : World) (j : nat) :
  j <= API_RETRY_ATTEMPTS config ->
  (forall i, i < j ->
     fails_fast (API_TIMEOUT config) (network env (netSeq w + i)) = true) ->
  times_out (API_TIMEOUT config) (network env (netSeq w + j)) = true ->
  exists w',
    DictionaryManager.fetchFromAPI env config word w
    = (Thrown (Error "Request timeout"), w')
    /\ (exists kind,
         DictionaryManager.lookupAPI env config word w
         = (Returned (Lookup.Make None None (Some kind) (Some "Request timeout")), w'))
    /\ netSeq w' = netSeq w + j + 1
    /\ fetch_calls (trace w')
       = fetch_calls (trace w) ++ repeat (api_url config word) (j + 1)
    /\ (exists t, trace w' = t ++ [EvFetch (api_url config word); EvAbort])
    /\ (clock w' <= clock w
                    + Z.of_nat (j + 1) * (Z.max 0 (API_TIMEOUT config) + 1000))%Z
    /\ same_stores w w'.
Proof.
  intros Hj Hfail Hto.
  destruct (fetchFromAPI_timeout env config word w j Hj Hfail Hto)
    as [w' [Hf [Hn [Hc [Ht [Hk Hst]]]]]].
  exists w'. split; [exact Hf|]. split; [|auto 10].
  exists "network". unfold DictionaryManager.lookupAPI, try_catch, bind.
  now rewrite Hf.
Qed.

Lemma C1_timeout_not_retried_witness :
  let env := MkEnv false (fun _ => None) (fun _ => Hangs) in
  let w := DictionaryManager.new QUICKDEFINE_CONFIG
             (MkWorld 0 (SimpleCache.new 0 0) None ∅ 0 0 []) in
  exists w',
    DictionaryManager.fetchFromAPI env QUICKDEFINE_CONFIG "hello" w
    = (Thrown (Error "Request timeout"), w')
    /\ netSeq w' = 1.
Proof.
  intros env w.
  destruct (C1_timeout_not_retried env QUICKDEFINE_CONFIG "hello" w 0)
    as [w' [Hf [_ [Hn _]]]].
  - simpl. lia.
  - intros i Hi. lia.
  - reflexivity.
  - exists w'. split; [exact Hf | exact Hn].
Defined.

(** * Facts about asynchronous computations *)

Section AsyncFacts.
Lemma extends_refl w : extends w w.
Proof. exists []. now rewrite app_nil_r. Qed.

Lemma extends_trans w1 w2 w3 : extends w1 w2 -> extends w2 w3 -> extends w1 w3.
Proof.
  intros [t1 H1] [t2 H2]. exists (t1 ++ t2). now rewrite H2, H1, app_assoc.
Qed.

Lemma extends_same w w' : trace w' = trace w -> extends w w'.
Proof. intros H. exists []. now rewrite app_nil_r. Qed.

Lemma settles_ret {A} (a : A) : settles (ret a).
Proof. intros w. split; [discriminate | apply extends_refl]. Qed.

Lemma settles_throw {A} e : settles (@throw A e).
Proof. intros w. split; [discriminate | apply extends_refl]. Qed.

Lemma settles_bind {A B} (m : Async A) (k : A -> Async B) :
  settles m -> (forall a, settles (k a)) -> settles (bind m k).
Proof.
  intros Hm Hk w. unfold bind. destruct (Hm w) as [Hp He].
  destruct (m w) as [[a|e|] w1]; simpl in *.
  - destruct (Hk a w1) as [Hp' He']. split; [exact Hp'|].
    eapply extends_trans; eassumption.
  - split; [discriminate | exact He].
  - contradiction.
Qed.

Lemma settles_try_catch {A} (m : Async A) (h : JsError -> Async A) :
  settles m -> (forall e, settles (h e)) -> settles (try_catch m h).
Proof.
  intros Hm Hh w. unfold try_catch. destruct (Hm w) as [Hp He].
  destruct (m w) as [[a|e|] w1]; simpl in *.
  - split; [discriminate | exact He].
  - destruct (Hh e w1) as [Hp' He']. split; [exact Hp'|].
    eapply extends_trans; eassumption.
  - contradiction.
Qed.

Lemma settles_emit ev : settles (emit ev).
Proof. intros w. split; [discriminate|]. now exists [ev]. Qed.

Lemma settles_now : settles now.
Proof. intros w. split; [discriminate | apply extends_refl]. Qed.

Lemma settles_read {A} (f : World -> A) : settles (read f).
Proof. intros w. split; [discriminate | apply extends_refl]. Qed.

Lemma settles_modify f :
  (forall w, trace (f w) = trace w) -> settles (modify f).
Proof. intros Hf w. split; [discriminate | apply extends_same, Hf]. Qed.

Lemma settles_sleep ms : settles (sleep ms).
Proof.
  apply settles_bind; [apply settles_emit|]. intros _ w.
  split; [discriminate | now apply extends_same].
Qed.

Lemma returns_settles {A} (m : Async A) : returns m -> settles m.
Proof.
  intros Hm w. destruct (Hm w) as [[a Ha] He]. split; [|exact He].
  rewrite Ha. discriminate.
Qed.

Lemma returns_ret {A} (a : A) : returns (ret a).
Proof. intros w. split; [now exists a | apply extends_refl]. Qed.

Lemma returns_bind {A B} (m : Async A) (k : A -> Async B) :
  returns m -> (forall a, returns (k a)) -> returns (bind m k).
Proof.
  intros Hm Hk w. unfold bind. destruct (Hm w) as [[a Ha] He].
  destruct (m w) as [o w1]; simpl in *. subst o.
  destruct (Hk a w1) as [Hr He']. split; [exact Hr|].
  eapply extends_trans; eassumption.
Qed.

Lemma returns_try_catch {A} (m : Async A) (h : JsError -> Async A) :
  settles m -> (forall e, returns (h e)) -> returns (try_catch m h).
Proof.
  intros Hm Hh w. unfold try_catch. destruct (Hm w) as [Hp He].
  destruct (m w) as [[a|e|] w1]; simpl in *.
  - split; [now exists a | exact He].
  - destruct (Hh e w1) as [Hr He']. split; [exact Hr|].
    eapply extends_trans; eassumption.
  - contradiction.
Qed.

Lemma returns_emit ev : returns (emit ev).
Proof. intros w. split; [now exists tt | now exists [ev]]. Qed.

Lemma returns_now : returns now.
Proof. intros w. split; [now eexists | apply extends_refl]. Qed.

Lemma returns_read {A} (f : World -> A) : returns (read f).
Proof. intros w. split; [now eexists | apply extends_refl]. Qed.

Lemma returns_modify f :
  (forall w, trace (f w) = trace w) -> returns (modify f).
Proof. intros Hf w. split; [now exists tt | apply extends_same, Hf]. Qed.

Lemma starts_with_emit ev : starts_with ev (emit ev).
Proof. intros w. now exists []. Qed.

Lemma starts_with_bind {A B} ev (m : Async A) (k : A -> Async B) :
  starts_with ev m -> (forall a, settles (k a)) -> starts_with ev (bind m k).
Proof.
  intros Hm Hk w. unfold bind. destruct (Hm w) as [t Ht].
  destruct (m w) as [[a|e|] w1]; simpl in *; try (now exists t).
  destruct (Hk a w1) as [_ [t' Ht']]. exists (t ++ t').
  rewrite Ht', Ht, <- app_assoc. reflexivity.
Qed.

Lemma starts_with_try_catch {A} ev (m : Async A) (h : JsError -> Async A) :
  starts_with ev m -> (forall e, settles (h e)) -> starts_with ev (try_catch m h).
Proof.
  intros Hm Hh w. unfold try_catch. destruct (Hm w) as [t Ht].
  destruct (m w) as [[a|e|] w1]; simpl in *; try (now exists t).
  destruct (Hh e w1) as [_ [t' Ht']]. exists (t ++ t').
  rewrite Ht', Ht, <- app_assoc. reflexivity.
Qed.
End AsyncFacts.

(** * Facts about the tiers of a lookup *)

Section TierFacts.
Variable env : Env.
Variable config : Config.

Lemma settles_request : settles (DictionaryDB.request env).
Proof.
  intros w. unfold DictionaryDB.request.
  destruct (idbFault env (idbSeq w)); simpl;
    (split; [discriminate | now apply extends_same]).
Qed.

Lemma settles_init : settles (DictionaryDB.init env).
Proof.
  intros w. unfold DictionaryDB.init.
  destruct (mgr_db w) as [d|]; [|split; [discriminate | apply extends_refl]].
  destruct (initPromise d) as [[e|]|];
    try (split; [discriminate | apply extends_refl]).
  destruct (db d); [split; [discriminate | apply extends_refl]|].
  unfold bind, emit, DictionaryDB.request; simpl.
  destruct (idbFault env (idbSeq w)); simpl;
    (split; [discriminate | now exists [EvIdbOpen]]).
Qed.

Lemma settles_db_get word : settles (DictionaryDB.get env word).
Proof.
  unfold DictionaryDB.get.
  apply settles_bind; [apply settles_init|]. intros _.
  apply settles_bind; [apply settles_emit|]. intros _.
  apply settles_bind; [apply settles_request|]. intros _.
  apply settles_bind; [apply settles_read|]. intros m. apply settles_ret.
Qed.

Lemma settles_db_set entry : settles (DictionaryDB.set env entry).
Proof.
  unfold DictionaryDB.set.
  apply settles_bind; [apply settles_init|]. intros _.
  destruct (Entry.word_falsy entry); [apply settles_throw|].
  apply settles_bind; [apply settles_now|]. intros t.
  apply settles_bind; [apply settles_emit|]. intros _.
  apply settles_bind; [apply settles_request|]. intros _.
  now apply settles_modify.
Qed.

Lemma returns_hotCache_get key : returns (DictionaryManager.hotCache_get key).
Proof.
  unfold DictionaryManager.hotCache_get.
  apply returns_bind; [apply returns_emit|]. intros _.
  apply returns_bind; [apply returns_now|]. intros t w.
  destruct (SimpleCache.get t key (hotCache w)) as [r c]. simpl.
  split; [now exists r | now apply extends_same].
Qed.

Lemma returns_hotCache_set key v : returns (DictionaryManager.hotCache_set key v).
Proof.
  unfold DictionaryManager.hotCache_set.
  apply returns_bind; [apply returns_emit|]. intros _.
  apply returns_bind; [apply returns_now|]. intros t.
  now apply returns_modify.
Qed.

Lemma returns_initDB : returns (DictionaryManager.initDB env).
Proof.
  unfold DictionaryManager.initDB.
  destruct (dbClassLoaded env); simpl; [|apply returns_ret].
  apply returns_bind; [apply returns_read|]. intros [d|]; [apply returns_ret|].
  apply returns_bind; [now apply returns_modify|]. intros _.
  apply returns_try_catch; [apply settles_init|]. intros e.
  now apply returns_modify.
Qed.

Lemma returns_lookupIndexedDB cleanWord :
  returns (DictionaryManager.lookupIndexedDB env cleanWord).
Proof.
  unfold DictionaryManager.lookupIndexedDB.
  apply returns_bind; [apply returns_initDB|]. intros _.
  apply returns_bind; [apply returns_read|]. intros [d|]; [|apply returns_ret].
  apply returns_try_catch; [|intros e; apply returns_ret].
  apply settles_bind; [apply settles_db_get|]. intros [r|]; [|apply settles_ret].
  destruct (StoreRecord.data r) as [v|]; [|apply settles_ret].
  destruct (truthy v); [|apply settles_ret].
  apply settles_bind; [apply returns_settles, returns_hotCache_set|].
  intros _. apply settles_ret.
Qed.

Lemma fetch_starts url timeout : starts_with (EvFetch url) (fetch env url timeout).
Proof.
  intros w. unfold fetch.
  destruct (network env (netSeq w)) as [d r|d msg|]; simpl;
    try destruct (Z.of_nat d <? timeout)%Z; simpl;
    try (now exists []); try (now exists [EvAbort]; rewrite <- app_assoc).
Qed.

Lemma settles_fetch url timeout : settles (fetch env url timeout).
Proof.
  intros w. destruct (fetch_starts url timeout w) as [t Ht]. split.
  - unfold fetch. destruct (network env (netSeq w)) as [d r|d msg|]; simpl;
      try destruct (Z.of_nat d <? timeout)%Z; discriminate.
  - now exists (EvFetch url :: t).
Qed.

Lemma settles_fetchWithTimeout url timeout retries :
  settles (fetchWithTimeout env url timeout retries).
Proof.
  induction retries as [|n IH]; simpl.
  - apply settles_try_catch; [apply settles_fetch|]. intros e.
    destruct (String.eqb (err_name e) "AbortError"); apply settles_throw.
  - apply settles_try_catch; [apply settles_fetch|]. intros e.
    destruct (String.eqb (err_name e) "AbortError"); [apply settles_throw|].
    apply settles_bind; [apply settles_sleep | intros _; exact IH].
Qed.

Lemma fetchWithTimeout_starts url timeout retries :
  starts_with (EvFetch url) (fetchWithTimeout env url timeout retries).
Proof.
  destruct retries as [|n]; simpl.
  - apply starts_with_try_catch; [apply fetch_starts|]. intros e.
    destruct (String.eqb (err_name e) "AbortError"); apply settles_throw.
  - apply starts_with_try_catch; [apply fetch_starts|]. intros e.
    destruct (String.eqb (err_name e) "AbortError"); [apply settles_throw|].
    apply settles_bind; [apply settles_sleep|]. intros _.
    apply settles_fetchWithTimeout.
Qed.

Lemma fetchFromAPI_handler_settles e :
  settles (if String.eqb (err_name e) "AbortError"
           then ret (Lookup.Make None None (Some "timeout") None)
           else throw e).
Proof.
  destruct (String.eqb (err_name e) "AbortError");
    [apply settles_ret | apply settles_throw].
Qed.

Lemma fetchFromAPI_body_settles (response : Response) :
  settles (if negb (ok response)
           then
             if (status response =? 404)%Z
             then ret (Lookup.Make None None (Some "not_found") None)
             else throw (Error ("API error: " ++ JsString.of_Z (status response))%string)
           else
             match body response with
             | Some data => ret (Lookup.Make (Some data) None None None)
             | None => throw SyntaxError
             end).
Proof.
  destruct (negb (ok response)).
  - destruct (status response =? 404)%Z; [apply settles_ret | apply settles_throw].
  - destruct (body response); [apply settles_ret | apply settles_throw].
Qed.

Lemma fetchFromAPI_starts word :
  starts_with (EvFetch (api_url config word))
    (DictionaryManager.fetchFromAPI env config word).
Proof.
  unfold DictionaryManager.fetchFromAPI. fold (api_url config word).
  apply starts_with_try_catch; [|apply fetchFromAPI_handler_settles].
  apply starts_with_bind; [apply fetchWithTimeout_starts|].
  apply fetchFromAPI_body_settles.
Qed.

Lemma settles_fetchFromAPI word :
  settles (DictionaryManager.fetchFromAPI env config word).
Proof.
  unfold DictionaryManager.fetchFromAPI.
  apply settles_try_catch; [|apply fetchFromAPI_handler_settles].
  apply settles_bind; [apply settles_fetchWithTimeout|].
  apply fetchFromAPI_body_settles.
Qed.

Lemma lookupAPI_body_settles cleanWord (apiResult : Lookup.t) :
  settles (match Lookup.data apiResult with
           | Some v =>
               if truthy v
               then
                 DictionaryManager.hotCache_set ("word_" ++ cleanWord)%string v ;;
                 d <- read mgr_db ;;
                 match d with
                 | Some _ =>
                     try_catch
                       (DictionaryDB.set env (Entry.Make (Some cleanWord) (Some v)))
                       (fun _ => ret tt)
                 | None => ret tt
                 end ;;
                 ret (Lookup.Make (Lookup.data apiResult) (Some "api")
                        (Lookup.error apiResult) (Lookup.message apiResult))
               else ret apiResult
           | None => ret apiResult
           end).
Proof.
  destruct (Lookup.data apiResult) as [v|]; [|apply settles_ret].
  destruct (truthy v); [|apply settles_ret].
  apply settles_bind; [apply returns_settles, returns_hotCache_set|]. intros _.
  apply settles_bind; [apply settles_read|]. intros d.
  apply settles_bind; [|intros _; apply settles_ret].
  destruct d; [|apply settles_ret].
  apply settles_try_catch; [apply settles_db_set | intros e; apply settles_ret].
Qed.

Lemma returns_lookupAPI cleanWord :
  returns (DictionaryManager.lookupAPI env config cleanWord).
Proof.
  unfold DictionaryManager.lookupAPI.
  apply returns_try_catch; [|intros e; apply returns_ret].
  apply settles_bind; [apply settles_fetchFromAPI|].
  apply lookupAPI_body_settles.
Qed.

Lemma lookupAPI_starts cleanWord :
  starts_with (EvFetch (api_url config cleanWord))
    (DictionaryManager.lookupAPI env config cleanWord).
Proof.
  unfold DictionaryManager.lookupAPI.
  apply starts_with_try_catch; [|intros e; apply settles_ret].
  apply starts_with_bind; [apply fetchFromAPI_starts|].
  apply lookupAPI_body_settles.
Qed.

(** The remote tier always sends a request and always hands a result
    to the caller. *)
Lemma lookupAPI_total cleanWord w :
  exists r w' t,
    DictionaryManager.lookupAPI env config cleanWord w = (Returned r, w')
    /\ trace w' = trace w ++ EvFetch (api_url config cleanWord) :: t.
Proof.
  destruct (returns_lookupAPI cleanWord w) as [[r Hr] _].
  destruct (lookupAPI_starts cleanWord w) as [t Ht].
  destruct (DictionaryManager.lookupAPI env config cleanWord w) as [o w'].
  simpl in *. subst o. now exists r, w', t.
Qed.
End TierFacts.

Section LookupFacts.
Variable env : Env.
Variable config : Config.

Lemma ensures_ret {A} (P : A -> Prop) a : P a -> ensures P (ret a).
Proof. intros Ha w a' w' [= <- _]. exact Ha. Qed.

Lemma ensures_throw {A} (P : A -> Prop) e : ensures P (throw e).
Proof. intros w a w' H. discriminate H. Qed.

Lemma ensures_bind {A B} (P : B -> Prop) (m : Async A) (k : A -> Async B) :
  (forall a, ensures P (k a)) -> ensures P (bind m k).
Proof.
  intros Hk w b w'. unfold bind. destruct (m w) as [[a|e|] w1]; try discriminate.
  apply Hk.
Qed.

Lemma ensures_try_catch {A} (P : A -> Prop) (m : Async A) h :
  ensures P m -> (forall e, ensures P (h e)) -> ensures P (try_catch m h).
Proof.
  intros Hm Hh w a w'. unfold try_catch. destruct (m w) as [[a'|e|] w1] eqn:E;
    try discriminate.
  - intros [= <- <-]. eapply Hm; eassumption.
  - apply Hh.
Qed.

Lemma fetchFromAPI_kinds word :
  ensures (fun r => known_error (Lookup.error r))
    (DictionaryManager.fetchFromAPI env config word).
Proof.
  unfold DictionaryManager.fetchFromAPI, known_error.
  apply ensures_try_catch.
  - apply ensures_bind. intros response.
    destruct (negb (ok response)).
    + destruct (status response =? 404)%Z;
        [apply ensures_ret; simpl; auto | apply ensures_throw].
    + destruct (body response);
        [apply ensures_ret; simpl; auto | apply ensures_throw].
  - intros e. destruct (String.eqb (err_name e) "AbortError");
      [apply ensures_ret; simpl; auto | apply ensures_throw].
Qed.

Lemma lookupAPI_kinds cleanWord :
  ensures (fun r => known_error (Lookup.error r))
    (DictionaryManager.lookupAPI env config cleanWord).
Proof.
  unfold DictionaryManager.lookupAPI.
  apply ensures_try_catch; [|intros e; apply ensures_ret; unfold known_error; simpl; auto].
  intros w r w'. unfold bind at 1.
  destruct (DictionaryManager.fetchFromAPI env config cleanWord w)
    as [[apiResult|e|] w1] eqn:Hf; try discriminate.
  pose proof (fetchFromAPI_kinds cleanWord w apiResult w1 Hf) as Hk. simpl in Hk.
  revert w' r. revert w1 Hf.
  assert (Hgoal : ensures (fun r => known_error (Lookup.error r))
            (match Lookup.data apiResult with
             | Some v =>
                 if truthy v
                 then
                   DictionaryManager.hotCache_set ("word_" ++ cleanWord)%string v ;;
                   d <- read mgr_db ;;
                   match d with
                   | Some _ =>
                       try_catch
                         (DictionaryDB.set env (Entry.Make (Some cleanWord) (Some v)))
                         (fun _ => ret tt)
                   | None => ret tt
                   end ;;
                   ret (Lookup.Make (Lookup.data apiResult) (Some "api")
                          (Lookup.error apiResult) (Lookup.message apiResult))
                 else ret apiResult
             | None => ret apiResult
             end)).
  { destruct (Lookup.data apiResult) as [v|]; [|now apply ensures_ret].
    destruct (truthy v); [|now apply ensures_ret].
    apply ensures_bind. intros _. apply ensures_bind. intros d.
    apply ensures_bind. intros _. now apply ensures_ret. }
  intros w1 _ w' r H. eapply Hgoal; eassumption.
Qed.

Lemma lookupIndexedDB_source cleanWord :
  ensures (fun found => forall r, found = Some r ->
             Lookup.source r = Some "indexeddb" /\ Lookup.error r = None)
    (DictionaryManager.lookupIndexedDB env cleanWord).
Proof.
  unfold DictionaryManager.lookupIndexedDB.
  apply ensures_bind. intros _. apply ensures_bind. intros [d|];
    [|apply ensures_ret; discriminate].
  apply ensures_try_catch; [|intros e; apply ensures_ret; discriminate].
  apply ensures_bind. intros [r|]; [|apply ensures_ret; discriminate].
  destruct (StoreRecord.data r) as [v|]; [|apply ensures_ret; discriminate].
  destruct (truthy v); [|apply ensures_ret; discriminate].
  apply ensures_bind. intros _. apply ensures_ret. intros r' [= <-]. now split.
Qed.

Lemma hotCache_get_spec key w :
  DictionaryManager.hotCache_get key w
  = (Returned (fst (SimpleCache.get (clock w) key (hotCache w))),
     set_hotCache (snd (SimpleCache.get (clock w) key (hotCache w)))
       (set_trace (trace w ++ [EvCacheGet key]) w)).
Proof.
  unfold DictionaryManager.hotCache_get, bind, emit, now. simpl.
  now destruct (SimpleCache.get (clock w) key (hotCache w)).
Qed.

Lemma StoreFailure_same w w' :
  mgr_db w' = mgr_db w -> idbSeq w' = idbSeq w ->
  StoreFailure env w -> StoreFailure env w'.
Proof.
  intros Hm Hs [H1 H2|e H1 H2 H3|e H1 H2 H3 H4|e H1 H2].
  - apply SF_not_loaded; congruence.
  - apply (SF_open_fails env w' e); congruence.
  - apply (SF_get_fails_fresh env w' e); congruence.
  - apply (SF_get_fails env w' e); congruence.
Qed.

Lemma initDB_not_loaded w :
  dbClassLoaded env = false -> DictionaryManager.initDB env w = (Returned tt, w).
Proof. intros H. unfold DictionaryManager.initDB. now rewrite H. Qed.

Lemma initDB_have_db w d :
  mgr_db w = Some d -> DictionaryManager.initDB env w = (Returned tt, w).
Proof.
  intros H. unfold DictionaryManager.initDB.
  destruct (dbClassLoaded env); simpl; [|reflexivity].
  run_async. now rewrite H.
Qed.

Lemma initDB_open_fails w e :
  dbClassLoaded env = true -> mgr_db w = None ->
  idbFault env (idbSeq w) = Some e ->
  DictionaryManager.initDB env w
  = (Returned tt,
     MkWorld (clock w) (hotCache w) None (idb w) (S (idbSeq w)) (netSeq w)
       (trace w ++ [EvIdbOpen])).
Proof.
  intros H1 H2 H3. unfold DictionaryManager.initDB. rewrite H1. simpl.
  run_async. rewrite H2. unfold DictionaryDB.init. run_async.
  rewrite H3. reflexivity.
Qed.

Lemma initDB_open_ok w :
  dbClassLoaded env = true -> mgr_db w = None ->
  idbFault env (idbSeq w) = None ->
  DictionaryManager.initDB env w
  = (Returned tt,
     MkWorld (clock w) (hotCache w) (Some (MkDB true (Some None))) (idb w)
       (S (idbSeq w)) (netSeq w) (trace w ++ [EvIdbOpen])).
Proof.
  intros H1 H2 H3. unfold DictionaryManager.initDB. rewrite H1. simpl.
  run_async. rewrite H2. unfold DictionaryDB.init. run_async.
  rewrite H3. reflexivity.
Qed.

Lemma db_get_fails word w e :
  mgr_db w = Some (MkDB true (Some None)) ->
  idbFault env (idbSeq w) = Some e ->
  DictionaryDB.get env word w
  = (Thrown e,
     MkWorld (clock w) (hotCache w) (mgr_db w) (idb w) (S (idbSeq w)) (netSeq w)
       (trace w ++ [EvIdbGet (JsString.normalize word)])).
Proof.
  intros H1 H2. unfold DictionaryDB.get, DictionaryDB.init. run_async.
  rewrite H1. simpl. rewrite H2. unfold set_idbSeq, set_trace. simpl.
  now rewrite H1.
Qed.

Lemma lookupIndexedDB_no_db cleanWord w w1 :
  DictionaryManager.initDB env w = (Returned tt, w1) -> mgr_db w1 = None ->
  DictionaryManager.lookupIndexedDB env cleanWord w = (Returned None, w1).
Proof.
  intros Hi Hd. unfold DictionaryManager.lookupIndexedDB. unfold bind at 1.
  rewrite Hi. run_async. now rewrite Hd.
Qed.

Lemma lookupIndexedDB_get_throws cleanWord w w1 d e w2 :
  DictionaryManager.initDB env w = (Returned tt, w1) -> mgr_db w1 = Some d ->
  DictionaryDB.get env cleanWord w1 = (Thrown e, w2) ->
  DictionaryManager.lookupIndexedDB env cleanWord w = (Returned None, w2).
Proof.
  intros Hi Hd Hg. unfold DictionaryManager.lookupIndexedDB. unfold bind at 1.
  rewrite Hi. unfold bind at 1, read. rewrite Hd.
  unfold try_catch, bind. now rewrite Hg.
Qed.
(** A store tier that fails is skipped: the lookup falls through. *)
Lemma lookupIndexedDB_store_failure cleanWord w :
  StoreFailure env w ->
  exists w',
    DictionaryManager.lookupIndexedDB env cleanWord w = (Returned None, w')
    /\ hotCache w' = hotCache w /\ idb w' = idb w
    /\ netSeq w' = netSeq w /\ clock w' = clock w /\ extends w w'.
Proof.
  intros [H1 H2|e H1 H2 H3|e H1 H2 H3 H4|e H1 H2].
  - exists w. split; [|repeat split; auto using extends_refl].
    apply lookupIndexedDB_no_db; [now apply initDB_not_loaded | exact H2].
  - eexists. split.
    + apply lookupIndexedDB_no_db; [now apply (initDB_open_fails w e) | reflexivity].
    + simpl. repeat split. now exists [EvIdbOpen].
  - eexists. split.
    + eapply lookupIndexedDB_get_throws;
        [now apply initDB_open_ok | reflexivity |].
      apply (db_get_fails cleanWord _ e); [reflexivity | exact H4].
    + simpl. repeat split.
      exists [EvIdbOpen; EvIdbGet (JsString.normalize cleanWord)].
      now rewrite <- app_assoc.
  - eexists. split.
    + eapply lookupIndexedDB_get_throws;
        [now apply (initDB_have_db w _ H1) | exact H1 |].
      now apply (db_get_fails cleanWord w e).
    + simpl. repeat split.
      now exists [EvIdbGet (JsString.normalize cleanWord)].
Qed.

Lemma getDefinition_miss word w :
  cache_miss word w ->
  DictionaryManager.getDefinition env config word w
  = (found <- DictionaryManager.lookupIndexedDB env (JsString.normalize word) ;;
     match found with
     | Some result => ret result
     | None => DictionaryManager.lookupAPI env config (JsString.normalize word)
     end)
      (set_hotCache
         (snd (SimpleCache.get (clock w)
                 ("word_" ++ JsString.normalize word)%string (hotCache w)))
         (set_trace
            (trace w ++ [EvCacheGet ("word_" ++ JsString.normalize word)%string]) w)).
Proof.
  intros Hmiss. unfold cache_miss in Hmiss.
  unfold DictionaryManager.getDefinition. unfold bind at 1.
  rewrite hotCache_get_spec. now rewrite Hmiss.
Qed.
End LookupFacts.

Section ManagerClaims.
Variable env : Env.
Variable config : Config.

Lemma hotCache_set_spec key v w :
  DictionaryManager.hotCache_set key v w
  = (Returned tt,
     set_hotCache (SimpleCache.set (clock w) key v (hotCache w))
       (set_trace (trace w ++ [EvCacheSet key]) w)).
Proof. reflexivity. Qed.

Lemma getDefinition_store_failure word w :
  cache_miss word w -> StoreFailure env w ->
  exists w1 r w' t,
    DictionaryManager.getDefinition env config word w
    = DictionaryManager.lookupAPI env config (JsString.normalize word) w1
    /\ DictionaryManager.lookupAPI env config (JsString.normalize word) w1
       = (Returned r, w')
    /\ trace w' = trace w1 ++ EvFetch (api_url config (JsString.normalize word)) :: t
    /\ extends w w1 /\ netSeq w1 = netSeq w /\ idb w1 = idb w.
Proof.
  intros Hmiss Hfail. rewrite getDefinition_miss by exact Hmiss.
  set (w0 := set_hotCache _ _).
  assert (Hfail0 : StoreFailure env w0).
  { apply (StoreFailure_same env w); [reflexivity | reflexivity | exact Hfail]. }
  destruct (lookupIndexedDB_store_failure env (JsString.normalize word) w0 Hfail0)
    as [w1 [Hl [_ [Hidb [Hnet [_ Hext]]]]]].
  destruct (lookupAPI_total env config (JsString.normalize word) w1) as [r [w' [t [Hr Ht]]]].
  exists w1, r, w', t. split.
  - unfold bind. now rewrite Hl.
  - split; [exact Hr|]. split; [exact Ht|]. split; [|split].
    + apply (extends_trans w w0 w1); [|exact Hext].
      now exists [EvCacheGet ("word_" ++ JsString.normalize word)%string].
    + rewrite Hnet. reflexivity.
    + rewrite Hidb. reflexivity.
Qed.

Lemma lookupAPI_write_failure cleanWord w v w1 d e w2 :
  DictionaryManager.fetchFromAPI env config cleanWord w
  = (Returned (Lookup.Make (Some v) None None None), w1) ->
  truthy v = true ->
  mgr_db w1 = Some d ->
  DictionaryDB.set env (Entry.Make (Some cleanWord) (Some v))
    (snd (DictionaryManager.hotCache_set ("word_" ++ cleanWord)%string v w1))
  = (Thrown e, w2) ->
  DictionaryManager.lookupAPI env config cleanWord w
  = (Returned (Lookup.Make (Some v) (Some "api") None None), w2).
Proof.
  intros Hf Hv Hd Hs. unfold DictionaryManager.lookupAPI.
  unfold try_catch at 1. unfold bind at 1. rewrite Hf. simpl. rewrite Hv.
  unfold bind at 1. rewrite hotCache_set_spec in *. simpl in Hs.
  unfold bind at 1. unfold bind at 1. unfold read. simpl. rewrite Hd.
  unfold try_catch. rewrite Hs. reflexivity.
Qed.

Lemma getDefinition_empty_key word w :
  JsString.normalize word = EmptyString ->
  exists r w' t,
    DictionaryManager.getDefinition env config word w = (Returned r, w')
    /\ trace w' = trace w ++ EvCacheGet "word_" :: t
    /\ (Lookup.source r = Some "hot_cache"
        \/ Lookup.source r = Some "indexeddb"
        \/ In (EvFetch (api_url config EmptyString)) t)
    /\ known_error (Lookup.error r).
Proof.
  intros Hn. unfold DictionaryManager.getDefinition. rewrite Hn.
  change ("word_" ++ EmptyString)%string with "word_".
  unfold bind at 1. rewrite hotCache_get_spec.
  destruct (truthy_opt (fst (SimpleCache.get (clock w) "word_" (hotCache w)))).
  - eexists. eexists. exists []. split; [reflexivity|]. simpl.
    split; [reflexivity|]. split; [now left | now left].
  - set (w0 := set_hotCache _ _). unfold bind.
    destruct (returns_lookupIndexedDB env EmptyString w0) as [[found Hfound] [t1 Ht1]].
    pose proof (lookupIndexedDB_source env EmptyString w0) as Hsrc.
    destruct (DictionaryManager.lookupIndexedDB env EmptyString w0) as [o w1].
    simpl in Hfound, Ht1. subst o. specialize (Hsrc found w1 eq_refl).
    destruct found as [r|].
    + destruct (Hsrc r eq_refl) as [Hs He].
      exists r, w1, t1. split; [reflexivity|]. split.
      * rewrite Ht1. subst w0. simpl. now rewrite <- app_assoc.
      * split; [now right; left|]. unfold known_error. now left.
    + destruct (lookupAPI_total env config EmptyString w1) as [r [w' [t2 [Hr Ht2]]]].
      pose proof (lookupAPI_kinds env config EmptyString w1 r w' Hr) as Hk.
      exists r, w', (t1 ++ EvFetch (api_url config EmptyString) :: t2).
      split; [exact Hr|]. split.
      * rewrite Ht2, Ht1. subst w0. simpl. now rewrite <- !app_assoc.
      * split; [|exact Hk]. right. right. apply in_or_app. right. now left.
Qed.
End ManagerClaims.

(** C5. On a cache miss, a store tier that fails (db.js not loaded, the
    database cannot be opened, or the [get] request fails) does not fail
    the lookup: it goes on to the remote tier, which sends its request
    and hands a result to the caller. When the remote fetch has returned
    a usable value and writing it into the store throws, the lookup still
    returns that value with the source 'api'. *)
Theorem C5_store_failures_absorbed :
  (forall env config word w,
      cache_miss word w -> StoreFailure env w ->
      exists w1 r w' t,
        DictionaryManager.getDefinition env config word w
        = DictionaryManager.lookupAPI env config (JsString.normalize word) w1
        /\ DictionaryManager.lookupAPI env config (JsString.normalize word) w1
           = (Returned r, w')
        /\ trace w' = trace w1 ++ EvFetch (api_url config (JsString.normalize word)) :: t
        /\ extends w w1 /\ netSeq w1 = netSeq w /\ idb w1 = idb w)
  /\ (forall env config cleanWord w v w1 d e w2,
      DictionaryManager.fetchFromAPI env config cleanWord w
      = (Returned (Lookup.Make (Some v) None None None), w1) ->
      truthy v = true ->
      mgr_db w1 = Some d ->
      DictionaryDB.set env (Entry.Make (Some cleanWord) (Some v))
        (snd (DictionaryManager.hotCache_set ("word_" ++ cleanWord)%string v w1))
      = (Thrown e, w2) ->
      DictionaryManager.lookupAPI env config cleanWord w
      = (Returned (Lookup.Make (Some v) (Some "api") None None), w2)).
Proof.
  split.
  - intros. now apply getDefinition_store_failure.
  - intros. now apply lookupAPI_write_failure with (w1 := w1) (d := d) (e := e).
Qed.

Lemma C5_store_failures_absorbed_witness :
  let quota := MkError "QuotaExceededError" "The quota has been exceeded." in
  let data := JArr [JObj [("word", JStr "hello")]] in
  let env := MkEnv true (fun n => match n with 0 => Some quota | _ => None end)
               (fun _ => Responds 80 (MkResponse 200 (Some data))) in
  let fresh := DictionaryManager.new QUICKDEFINE_CONFIG
                 (MkWorld 0 (SimpleCache.new 0 0) None ∅ 0 0 []) in
  let ready := set_mgr_db (Some (MkDB true (Some None))) fresh in
  (exists w1 r w' t,
      DictionaryManager.getDefinition env QUICKDEFINE_CONFIG "Hello " fresh
      = DictionaryManager.lookupAPI env QUICKDEFINE_CONFIG "hello" w1
      /\ DictionaryManager.lookupAPI env QUICKDEFINE_CONFIG "hello" w1 = (Returned r, w')
      /\ trace w' = trace w1 ++ EvFetch (api_url QUICKDEFINE_CONFIG "hello") :: t
      /\ extends fresh w1 /\ netSeq w1 = netSeq fresh /\ idb w1 = idb fresh)
  /\ fst (DictionaryManager.lookupAPI env QUICKDEFINE_CONFIG "hello" ready)
     = Returned (Lookup.Make (Some data) (Some "api") None None).
Proof.
  intros quota data env fresh ready.
  destruct C5_store_failures_absorbed as [Hfail Hwrite]. split.
  - apply (Hfail env QUICKDEFINE_CONFIG "Hello " fresh).
    + reflexivity.
    + apply (SF_open_fails env fresh quota); reflexivity.
  - erewrite (Hwrite env QUICKDEFINE_CONFIG "hello" ready data _ (MkDB true (Some None)) quota _).
    + reflexivity.
    + vm_compute. reflexivity.
    + reflexivity.
    + reflexivity.
    + vm_compute. reflexivity.
Defined.

(** C3, as stated, fails: a key of blanks is looked up like any other;
    the cache is probed under "word_", the remote tier is asked for the
    empty word, and its answer is returned with the source 'api'. *)
Lemma C3_counterexample :
  let data := JArr [JObj [("word", JStr EmptyString)]] in
  let env := MkEnv false (fun _ => None)
               (fun _ => Responds 80 (MkResponse 200 (Some data))) in
  let w := DictionaryManager.new QUICKDEFINE_CONFIG
             (MkWorld 0 (SimpleCache.new 0 0) None ∅ 0 0 []) in
  let r := DictionaryManager.getDefinition env QUICKDEFINE_CONFIG "   " w in
  JsString.normalize "   " = EmptyString
  /\ fst r = Returned (Lookup.Make (Some data) (Some "api") None None)
  /\ trace (snd r)
     = [EvCacheGet "word_";
        EvFetch "https://api.dictionaryapi.dev/api/v2/entries/en/";
        EvCacheSet "word_"].
Proof. vm_compute. repeat split. Qed.

(** C3, amended. A key that is empty after normalisation is not
    rejected: the lookup probes the cache under the key "word_" first
    and, unless the cache or the store answers, sends the request for
    the empty word to the remote tier. It always hands a result to the
    caller, and the only error kinds it reports are those of the remote
    tier ('not_found', 'timeout', 'network'); there is no input error. *)
Theorem C3_empty_key_walks_tiers (env : Env) (config : Config) (word : string)
    (w : World) :
  JsString.normalize word = EmptyString ->
  exists r w' t,
    DictionaryManager.getDefinition env config word w = (Returned r, w')
    /\ trace w' = trace w ++ EvCacheGet "word_" :: t
    /\ (Lookup.source r = Some "hot_cache"
        \/ Lookup.source r = Some "indexeddb"
        \/ In (EvFetch (api_url config EmptyString)) t)
    /\ known_error (Lookup.error r).
Proof. apply getDefinition_empty_key. Qed.

Lemma C3_empty_key_walks_tiers_witness :
  let env := MkEnv false (fun _ => None)
               (fun _ => Responds 80 (MkResponse 404 None)) in
  let w := DictionaryManager.new QUICKDEFINE_CONFIG
             (MkWorld 0 (SimpleCache.new 0 0) None ∅ 0 0 []) in
  exists r w' t,
    DictionaryManager.getDefinition env QUICKDEFINE_CONFIG "   " w = (Returned r, w')
    /\ trace w' = trace w ++ EvCacheGet "word_" :: t.
Proof.
  intros env w.
  destruct (C3_empty_key_walks_tiers env QUICKDEFINE_CONFIG "   " w)
    as [r [w' [t [H1 [H2 _]]]]].
  - reflexivity.
  - exists r, w', t. split; [exact H1 | exact H2].
Defined.

(** * Facts about [preloadDictionary] *)

Section PreloadFacts.
Variable env : Env.
Hypothesis Hnf : no_faults env.

Local Arguments Nat.mul : simpl never.
Local Arguments Nat.min : simpl never.
Local Arguments Nat.sub : simpl never.
Local Arguments Nat.add : simpl never.

Lemma batches_lt n j : j < batches n <-> DictionaryManager.batchSize * j < n.
Proof.
  unfold batches. change DictionaryManager.batchSize with 100.
  change (100 - 1) with 99.
  pose proof (Nat.div_mod_eq (n + 99) 100) as H1.
  assert (H2 : (n + 99) mod 100 < 100) by (apply Nat.mod_upper_bound; lia).
  lia.
Qed.

Lemma batch_events_app t1 t2 :
  batch_events (t1 ++ t2) = batch_events t1 ++ batch_events t2.
Proof. apply List.filter_app. Qed.

Lemma batch_events_puts (rs : list StoreRecord.t) :
  batch_events (map (fun r => EvIdbPut (StoreRecord.word r)) rs) = [].
Proof. induction rs as [|r rs IH]; simpl; [reflexivity | exact IH]. Qed.

Lemma put_all_app rs1 rs2 (m : gmap string StoreRecord.t) :
  put_all (rs1 ++ rs2) m = put_all rs2 (put_all rs1 m).
Proof. apply fold_left_app. Qed.

Lemma written_app l1 l2 : written (l1 ++ l2) = written l1 ++ written l2.
Proof. apply List.filter_app. Qed.

Lemma preloadLoop_done entries onProgress i processed :
  length entries <= i ->
  DictionaryManager.preloadLoop env entries onProgress i processed = ret tt.
Proof.
  intros H. rewrite DictionaryManager.preloadLoop_equation_1.
  destruct (le_lt_dec (length entries) i) as [Hle|Hlt]; [|lia].
  apply DictionaryManager.preloadLoop_clause_1_equation_1.
Qed.

Lemma preloadLoop_step entries onProgress i processed :
  i < length entries ->
  DictionaryManager.preloadLoop env entries onProgress i processed
  = (let batch := take DictionaryManager.batchSize (drop i entries) in
     let formattedBatch := map DictionaryManager.formatEntry batch in
     DictionaryDB.setBatch env formattedBatch ;;
     let processed' := processed + length batch in
     (if onProgress
      then emit (EvProgress processed' (length entries))
      else ret tt) ;;
     sleep 0 ;;
     DictionaryManager.preloadLoop env entries onProgress
       (i + DictionaryManager.batchSize) processed').
Proof.
  intros H. rewrite DictionaryManager.preloadLoop_equation_1.
  destruct (le_lt_dec (length entries) i) as [Hle|Hlt]; [lia|].
  apply DictionaryManager.preloadLoop_clause_1_equation_2.
Qed.

(** A batch that is not empty, on a store that is ready. *)
Lemma setBatch_ok entries w :
  store_ready env w -> entries <> [] ->
  exists w',
    DictionaryDB.setBatch env entries w = (Returned tt, w')
    /\ idb w' = put_all (map (DictionaryDB.entryToStore (clock w)) (written entries))
                  (idb w)
    /\ clock w' = clock w /\ mgr_db w' = mgr_db w
    /\ batch_events (trace w')
       = batch_events (trace w) ++ [EvSetBatch (length entries)].
Proof.
  intros Hr Hne. unfold DictionaryDB.setBatch.
  unfold bind at 1. unfold emit at 1.
  set (w0 := set_trace (trace w ++ [EvSetBatch (length entries)]) w).
  assert (Hr0 : store_ready env w0) by (now apply (store_ready_same env w)).
  unfold bind. rewrite Hr0.
  rewrite run_fulfilled; [|exact Hne | now apply first_fault_none].
  eexists. split; [reflexivity|]. simpl. repeat split.
  rewrite !batch_events_app, batch_events_puts, app_nil_r. reflexivity.
Qed.

Lemma preloadLoop_spec entries k : forall j w,
  store_ready env w ->
  j + k = batches (length entries) ->
  exists w',
    DictionaryManager.preloadLoop env entries true
      (DictionaryManager.batchSize * j)
      (Nat.min (DictionaryManager.batchSize * j) (length entries)) w
    = (Returned tt, w')
    /\ batch_events (trace w')
       = batch_events (trace w)
         ++ flat_map (batch_shows (length entries)) (seq j k)
    /\ idb w'
       = put_all
           (map (DictionaryDB.entryToStore (clock w))
              (written (map DictionaryManager.formatEntry
                          (drop (DictionaryManager.batchSize * j) entries))))
           (idb w)
    /\ clock w' = clock w /\ mgr_db w' = mgr_db w.
Proof.
  induction k as [|k IH]; intros j w Hr Hjk.
  - assert (Hge : length entries <= DictionaryManager.batchSize * j).
    { destruct (le_lt_dec (length entries) (DictionaryManager.batchSize * j)) as [|Hlt];
        [assumption|]. apply batches_lt in Hlt. lia. }
    rewrite preloadLoop_done by exact Hge.
    exists w. rewrite drop_ge by exact Hge. simpl. rewrite app_nil_r.
    repeat split.
  - assert (Hlt : DictionaryManager.batchSize * j < length entries).
    { apply batches_lt. lia. }
    rewrite preloadLoop_step by exact Hlt. cbv zeta.
    set (i := DictionaryManager.batchSize * j) in *.
    set (batch := take DictionaryManager.batchSize (drop i entries)).
    assert (Hlen : length batch
                   = Nat.min DictionaryManager.batchSize (length entries - i)).
    { subst batch. now rewrite length_take, length_drop. }
    assert (Hne : map DictionaryManager.formatEntry batch <> []).
    { assert (Hpos : length batch <> 0).
      { rewrite Hlen. change DictionaryManager.batchSize with 100 in *. lia. }
      destruct batch; [contradiction | discriminate]. }
    destruct (setBatch_ok (map DictionaryManager.formatEntry batch) w Hr Hne)
      as [w1 [Hs [Hidb1 [Hc1 [Hm1 Hev1]]]]].
    unfold bind at 1. rewrite Hs.
    unfold bind at 1. unfold emit at 1.
    unfold bind at 1. unfold sleep, bind, emit, advance. simpl.
    set (w2 := set_clock _ _).
    assert (Hr2 : store_ready env w2).
    { apply (store_ready_same env w); [exact Hr | exact Hm1]. }
    assert (Hp : Nat.min i (length entries) + length batch
                 = Nat.min (DictionaryManager.batchSize * S j) (length entries)).
    { rewrite Hlen. subst i. change DictionaryManager.batchSize with 100 in *. lia. }
    rewrite Hp.
    replace (i + DictionaryManager.batchSize)
      with (DictionaryManager.batchSize * S j) by (subst i; lia).
    destruct (IH (S j) w2 Hr2) as [w' [Hl [Hev [Hidb [Hc Hm]]]]]; [lia|].
    exists w'. split; [exact Hl|]. split; [|split; [|split]].
    + rewrite Hev. subst w2. simpl.
      rewrite !batch_events_app, Hev1. simpl.
      rewrite length_map, Hp, Hlen, app_nil_r, <- !app_assoc. subst i.
      reflexivity.
    + rewrite Hidb. subst w2. simpl. rewrite Hidb1, Hc1, Z.add_0_r.
      rewrite <- put_all_app, <- map_app, <- written_app, <- map_app.
      subst batch.
      replace (DictionaryManager.batchSize * S j)
        with (i + DictionaryManager.batchSize) by (subst i; lia).
      rewrite <- drop_drop, take_drop. reflexivity.
    + rewrite Hc. subst w2. simpl. lia.
    + rewrite Hm. subst w2. simpl. exact Hm1.
Qed.

Lemma initDB_available w :
  StoreAvailable env w ->
  exists w1,
    DictionaryManager.initDB env w = (Returned tt, w1)
    /\ mgr_db w1 = Some (MkDB true (Some None))
    /\ idb w1 = idb w /\ clock w1 = clock w
    /\ batch_events (trace w1) = batch_events (trace w).
Proof.
  intros [[Hl Hd]|Hd].
  - rewrite (initDB_open_ok env w Hl Hd (Hnf _)). eexists. split; [reflexivity|].
    simpl. repeat split. rewrite batch_events_app. simpl. now rewrite app_nil_r.
  - rewrite (initDB_have_db env w _ Hd). exists w. repeat split. exact Hd.
Qed.

Lemma size_put_all rs : forall (m : gmap string StoreRecord.t),
  List.NoDup (map StoreRecord.word rs) ->
  (forall r, In r rs -> m !! StoreRecord.word r = None) ->
  size (put_all rs m) = size m + length rs.
Proof.
  induction rs as [|r rs IH]; intros m Hnd Hfresh; simpl; [lia|].
  apply List.NoDup_cons_iff in Hnd as [Hnin Hnd].
  rewrite IH.
  - rewrite map_size_insert_None by (apply Hfresh; now left). lia.
  - exact Hnd.
  - intros r' Hr'. rewrite lookup_insert_ne; [apply Hfresh; now right|].
    intros E. apply Hnin. rewrite E. now apply in_map.
Qed.

Lemma written_all_valid entries :
  List.Forall (fun e => entry_key e <> EmptyString) entries ->
  written (map DictionaryManager.formatEntry entries)
  = map DictionaryManager.formatEntry entries.
Proof.
  induction 1 as [|e l He _ IH]; simpl; [reflexivity|].
  fold (written (map DictionaryManager.formatEntry l)). rewrite IH.
  unfold Entry.word_falsy, DictionaryManager.formatEntry at 1. simpl.
  unfold entry_key in He. destruct (Entry.word e) as [s|]; simpl in *.
  - destruct (JsString.normalize s); [contradiction | reflexivity].
  - contradiction.
Qed.

Lemma stored_keys t entries :
  map StoreRecord.word
    (map (DictionaryDB.entryToStore t) (map DictionaryManager.formatEntry entries))
  = map entry_key entries.
Proof.
  rewrite !map_map. apply map_ext. intros e.
  unfold DictionaryDB.entryToStore, DictionaryManager.formatEntry, entry_key. simpl.
  destruct (Entry.word e); simpl; [apply normalize_idem | reflexivity].
Qed.
End PreloadFacts.

Section PreloadClaims.
Variable env : Env.
Hypothesis Hnf : no_faults env.

Local Arguments Nat.mul : simpl never.
Local Arguments Nat.min : simpl never.
Local Arguments Nat.sub : simpl never.

Lemma progress_calls_app t1 t2 :
  progress_calls (t1 ++ t2) = progress_calls t1 ++ progress_calls t2.
Proof. apply flat_map_app. Qed.

Lemma progress_calls_batch_events t :
  progress_calls (batch_events t) = progress_calls t.
Proof.
  induction t as [|e t IH]; simpl; [reflexivity|].
  destruct e; simpl; try exact IH; now rewrite IH.
Qed.

Lemma progress_calls_shows n l :
  progress_calls (flat_map (batch_shows n) l)
  = map (fun j => (Nat.min (DictionaryManager.batchSize * S j) n, n)) l.
Proof. induction l as [|j l IH]; simpl; [reflexivity | now rewrite IH]. Qed.

Lemma setBatch_calls_batch_events t :
  setBatch_calls (batch_events t) = setBatch_calls t.
Proof.
  induction t as [|e t IH]; simpl; [reflexivity|].
  destruct e; simpl; try exact IH; now rewrite IH.
Qed.

Lemma setBatch_calls_shows n l :
  setBatch_calls (flat_map (batch_shows n) l)
  = map (fun j => Nat.min DictionaryManager.batchSize
                    (n - DictionaryManager.batchSize * j)) l.
Proof. induction l as [|j l IH]; simpl; [reflexivity | now rewrite IH]. Qed.

Lemma count_ok w :
  store_ready env w -> DictionaryDB.count env w
                       = (Returned (size (idb w)),
                          set_idbSeq (S (idbSeq w))
                            (set_trace (trace w ++ [EvIdbCount]) w)).
Proof.
  intros Hr. unfold DictionaryDB.count. unfold bind at 1. rewrite Hr.
  run_async. now rewrite Hnf.
Qed.

Lemma preloadDictionary_spec entries w :
  StoreAvailable env w ->
  exists w',
    DictionaryManager.preloadDictionary env entries true w = (Returned tt, w')
    /\ batch_events (trace w')
       = batch_events (trace w)
         ++ flat_map (batch_shows (length entries)) (seq 0 (batches (length entries)))
    /\ idb w'
       = put_all
           (map (DictionaryDB.entryToStore (clock w))
              (written (map DictionaryManager.formatEntry entries)))
           (idb w)
    /\ store_ready env w'.
Proof.
  intros Ha. destruct (initDB_available env Hnf w Ha) as [w1 [Hi [Hd [Hidb [Hc Hev]]]]].
  unfold DictionaryManager.preloadDictionary. unfold bind at 1. rewrite Hi.
  unfold bind, read. rewrite Hd.
  assert (Hr1 : store_ready env w1) by (now apply init_initialised).
  destruct (preloadLoop_spec env Hnf entries (batches (length entries)) 0 w1 Hr1 eq_refl)
    as [w' [Hl [Hev' [Hidb' [_ Hm]]]]].
  rewrite Nat.mul_0_r in Hl. change (Nat.min 0 (length entries)) with 0 in Hl.
  exists w'. split; [exact Hl|]. split; [|split].
  - now rewrite Hev', Hev.
  - rewrite Hidb', Nat.mul_0_r, Hidb, Hc. reflexivity.
  - apply (store_ready_same env w1); assumption.
Qed.
End PreloadClaims.

(** C7, as stated, fails: the batch size of [preloadDictionary] is the
    constant 100, so 100 records are one batch and [onProgress] is
    invoked once, not 10 times. *)
Lemma C7_counterexample :
  let env := MkEnv true (fun _ => None) (fun _ => Hangs) in
  let w := DictionaryManager.new QUICKDEFINE_CONFIG
             (MkWorld 0 (SimpleCache.new 0 0) None ∅ 0 0 []) in
  let entries :=
    map (fun i => Entry.Make (Some ("w" ++ JsString.of_Z (Z.of_nat i))%string) None)
      (seq 0 100) in
  let r := DictionaryManager.preloadDictionary env entries true w in
  length entries = 100
  /\ fst r = Returned tt
  /\ progress_calls (trace (snd r)) = [(100, 100)]
  /\ length (progress_calls (trace (snd r))) <> 10
  /\ size (idb (snd r)) = 100.
Proof. vm_compute. repeat split. discriminate. Qed.

(** C7, amended. With the store available and no storage fault,
    [preloadDictionary] of n records returns after cutting the list into
    batches of the fixed size 100: it calls [setBatch] once per batch
    and then [onProgress] once, with the number of records processed so
    far, which grows strictly from batch to batch and ends at n. So 100
    records give one call of [onProgress], with 100, and 1000 records
    give 10 calls. When the store was empty and the normalised words of
    the records are non-empty and pairwise distinct, [count()] then
    returns n. *)
Theorem C7_preload_batches (env : Env) (entries : list Entry.t) (w : World) :
  no_faults env ->
  StoreAvailable env w ->
  let n := length entries in
  exists w',
    DictionaryManager.preloadDictionary env entries true w = (Returned tt, w')
    /\ batch_events (trace w')
       = batch_events (trace w) ++ flat_map (batch_shows n) (seq 0 (batches n))
    /\ progress_calls (trace w')
       = progress_calls (trace w)
         ++ map (fun j => (Nat.min (DictionaryManager.batchSize * S j) n, n))
              (seq 0 (batches n))
    /\ setBatch_calls (trace w')
       = setBatch_calls (trace w)
         ++ map (fun j => Nat.min DictionaryManager.batchSize
                            (n - DictionaryManager.batchSize * j))
              (seq 0 (batches n))
    /\ (forall j j', j < j' -> j' < batches n ->
        Nat.min (DictionaryManager.batchSize * S j) n
        < Nat.min (DictionaryManager.batchSize * S j') n)
    /\ (0 < n -> Nat.min (DictionaryManager.batchSize * batches n) n = n)
    /\ batches 100 = 1 /\ batches 1000 = 10
    /\ (idb w = ∅ ->
        List.Forall (fun e => entry_key e <> EmptyString) entries ->
        List.NoDup (map entry_key entries) ->
        size (idb w') = n
        /\ fst (DictionaryDB.count env w') = Returned n).
Proof.
  intros Hnf Ha n.
  destruct (preloadDictionary_spec env Hnf entries w Ha) as [w' [Hp [Hev [Hidb Hr]]]].
  exists w'. split; [exact Hp|]. split; [exact Hev|].
  split; [|split; [|split; [|split; [|split; [|split]]]]].
  - rewrite <- progress_calls_batch_events, Hev, progress_calls_app,
      progress_calls_batch_events, progress_calls_shows. reflexivity.
  - rewrite <- setBatch_calls_batch_events, Hev.
    unfold setBatch_calls at 1. rewrite flat_map_app.
    fold (setBatch_calls (batch_events (trace w))).
    fold (setBatch_calls (flat_map (batch_shows n) (seq 0 (batches n)))).
    rewrite setBatch_calls_batch_events, setBatch_calls_shows. reflexivity.
  - intros j j' Hjj Hj'. apply batches_lt in Hj'.
    change DictionaryManager.batchSize with 100 in *. lia.
  - intros Hn. pose proof (proj1 (batches_lt n (batches n - 1))) as H1.
    assert (Hb : batches n <> 0).
    { intros E. pose proof (proj2 (batches_lt n 0)) as H0. rewrite E in H0.
      change DictionaryManager.batchSize with 100 in H0. lia. }
    assert (Hle : n <= DictionaryManager.batchSize * batches n).
    { destruct (le_lt_dec n (DictionaryManager.batchSize * batches n)) as [|Hlt];
        [assumption|]. apply batches_lt in Hlt. lia. }
    lia.
  - reflexivity.
  - reflexivity.
  - intros Hempty Hvalid Hnd.
    assert (Hsize : size (idb w') = n).
    { rewrite Hidb, written_all_valid by exact Hvalid.
      rewrite size_put_all.
      - rewrite Hempty, map_size_empty, !length_map. reflexivity.
      - now rewrite stored_keys.
      - intros r _. rewrite Hempty. apply lookup_empty. }
    split; [exact Hsize|].
    rewrite (count_ok env Hnf w' Hr). simpl. now rewrite Hsize.
Qed.

Lemma C7_preload_batches_witness :
  let env := MkEnv true (fun _ => None) (fun _ => Hangs) in
  let w := DictionaryManager.new QUICKDEFINE_CONFIG
             (MkWorld 0 (SimpleCache.new 0 0) None ∅ 0 0 []) in
  let entries := [Entry.Make (Some " Apple") None; Entry.Make (Some "pear ") None;
                  Entry.Make (Some "FIG") None] in
  exists w',
    DictionaryManager.preloadDictionary env entries true w = (Returned tt, w')
    /\ progress_calls (trace w') = [(3, 3)]
    /\ size (idb w') = 3.
Proof.
  intros env w entries.
  destruct (C7_preload_batches env entries w) as [w' [Hp [_ [Hc [_ [_ [_ [_ [_ Hn]]]]]]]]].
  - intros n. reflexivity.
  - left. split; reflexivity.
  - exists w'. split; [exact Hp|]. split; [exact Hc|].
    apply Hn.
    + reflexivity.
    + repeat constructor; discriminate.
    + vm_compute. repeat constructor; simpl; intuition discriminate.
Defined.
